(** * repair_json_text: decoding, mojibake repair and re-encoding

    A shallow embedding of [.a5c/orchestrator_scripts/repair_json_text.py]
    and of the parts of the Python runtime it calls (the [utf-8],
    [utf-8-sig] and [utf-16] codecs, [re.sub] on the patterns of
    [REPLACEMENTS], [argparse] for the two required flags, [pathlib]'s
    [read_bytes] and [write_text]).

    - Python [bytes] are lists of [Byte.byte]; Python [str] is a list of
      code points ([N], 0 .. 0x10FFFF); command-line tokens and paths are
      [str] as well.
    - Exceptions are an explicit [result]; the file system and the exit of
      the process are threaded through a small state-and-exit monad. *)

From Stdlib Require Import NArith ZArith List Bool Lia ZifyBool Ascii String.
From Stdlib.Strings Require Import Byte.
From stdpp Require Import base option list gmap.
Import ListNotations.

Local Open Scope N_scope.

(** ** Data *)

Definition codepoint := N.
Definition str := list codepoint.
Definition bytes := list byte.

(** A [str] literal from an ASCII string of the source. *)
Definition lit (s : string) : str :=
  List.map N_of_ascii (list_ascii_of_string s).

Definition b2n (b : byte) : N := Byte.to_N b.

(** Reasons of a [UnicodeDecodeError], as CPython words them. *)
Inductive decode_reason :=
| TruncatedData
| UnexpectedEndOfData
| IllegalEncoding
| IllegalUTF16Surrogate.

Inductive exn :=
| UnicodeDecodeError (codec : string) (why : decode_reason)
| UnicodeEncodeError (c : codepoint)
| OSError (path : str)
| TypeError
| SystemExit (status : Z).

Inductive result (A : Type) :=
| Ok (a : A)
| Raise (e : exn).
Arguments Ok {A} a.
Arguments Raise {A} e.

Definition rbind {A B} (r : result A) (k : A -> result B) : result B :=
  match r with
  | Ok a => k a
  | Raise e => Raise e
  end.

Definition rmap {A B} (f : A -> B) (r : result A) : result B :=
  rbind r (fun a => Ok (f a)).

(** ** [bytes.startswith] *)

Definition byte_eqb (a b : byte) : bool := Byte.eqb a b.

Fixpoint startswith (prefix s : bytes) : bool :=
  match prefix, s with
  | [], _ => true
  | p :: prefix', c :: s' => byte_eqb p c && startswith prefix' s'
  | _ :: _, [] => false
  end.

(** ** The [utf-8] codec, [errors="replace"]

    CPython's decoder ([utf8_decode] in [Objects/stringlib/codecs.h] with
    the error positions of [unicode_decode_utf8]): a lead byte fixes the
    length of the sequence; the second byte of a three- or four-byte
    sequence has a narrower range after E0, ED, F0 and F4; on an error
    the replace handler writes one U+FFFD and decoding resumes at the end
    of the erroneous bytes, which is one byte for an invalid start byte,
    the bytes read so far for an invalid continuation byte, and the rest
    of the input for a sequence cut short by the end of the data. *)

Definition REPLACEMENT_CHARACTER : codepoint := 0xFFFD.

Definition is_continuation (b : byte) : bool :=
  (0x80 <=? b2n b) && (b2n b <? 0xC0).

Definition join2 (c0 : N) (b1 : byte) : codepoint :=
  c0 * 0x40 + b2n b1 - (0xC0 * 0x40 + 0x80).

Definition join3 (c0 : N) (b1 b2 : byte) : codepoint :=
  c0 * 0x1000 + b2n b1 * 0x40 + b2n b2
  - (0xE0 * 0x1000 + 0x80 * 0x40 + 0x80).

Definition join4 (c0 : N) (b1 b2 b3 : byte) : codepoint :=
  c0 * 0x40000 + b2n b1 * 0x1000 + b2n b2 * 0x40 + b2n b3
  - (0xF0 * 0x40000 + 0x80 * 0x1000 + 0x80 * 0x40 + 0x80).

(** The second byte is not a continuation byte, or it would give an
    overlong form (after E0, F0), a surrogate (after ED) or a value past
    U+10FFFF (after F4). *)
Definition bad_second3 (c0 : N) (b1 : byte) : bool :=
  negb (is_continuation b1)
  || (if b2n b1 <? 0xA0 then c0 =? 0xE0 else c0 =? 0xED).

Definition bad_second4 (c0 : N) (b1 : byte) : bool :=
  negb (is_continuation b1)
  || (if b2n b1 <? 0x90 then c0 =? 0xF0 else c0 =? 0xF4).

Fixpoint utf8_decode_replace (s : bytes) : str :=
  match s with
  | [] => []
  | b0 :: s1 =>
    let c0 := b2n b0 in
    if c0 <? 0x80 then c0 :: utf8_decode_replace s1
    else if c0 <? 0xC2 then
      (* invalid start byte: a continuation byte, or C0, C1 *)
      REPLACEMENT_CHARACTER :: utf8_decode_replace s1
    else if c0 <? 0xE0 then
      match s1 with
      | [] => [REPLACEMENT_CHARACTER]
      | b1 :: s2 =>
        if is_continuation b1 then join2 c0 b1 :: utf8_decode_replace s2
        else REPLACEMENT_CHARACTER :: utf8_decode_replace s1
      end
    else if c0 <? 0xF0 then
      match s1 with
      | [] => [REPLACEMENT_CHARACTER]
      | b1 :: s2 =>
        if bad_second3 c0 b1 then
          REPLACEMENT_CHARACTER :: utf8_decode_replace s1
        else
          match s2 with
          | [] => [REPLACEMENT_CHARACTER]
          | b2 :: s3 =>
            if is_continuation b2 then
              join3 c0 b1 b2 :: utf8_decode_replace s3
            else REPLACEMENT_CHARACTER :: utf8_decode_replace s2
          end
      end
    else if c0 <? 0xF5 then
      match s1 with
      | [] => [REPLACEMENT_CHARACTER]
      | b1 :: s2 =>
        if bad_second4 c0 b1 then
          REPLACEMENT_CHARACTER :: utf8_decode_replace s1
        else
          match s2 with
          | [] => [REPLACEMENT_CHARACTER]
          | b2 :: s3 =>
            if negb (is_continuation b2) then
              REPLACEMENT_CHARACTER :: utf8_decode_replace s2
            else
              match s3 with
              | [] => [REPLACEMENT_CHARACTER]
              | b3 :: s4 =>
                if is_continuation b3 then
                  join4 c0 b1 b2 b3 :: utf8_decode_replace s4
                else REPLACEMENT_CHARACTER :: utf8_decode_replace s3
              end
          end
      end
    else
      (* invalid start byte: F5 .. FF *)
      REPLACEMENT_CHARACTER :: utf8_decode_replace s1
  end.

(** [bytes.decode("utf-8", errors="replace")]: never raises. *)
Definition decode_utf_8_replace (raw : bytes) : result str :=
  Ok (utf8_decode_replace raw).

(** [bytes.decode("utf-8-sig", errors="replace")]
    ([encodings/utf_8_sig.py]): one leading EF BB BF is dropped, the rest
    goes to the [utf-8] decoder. *)
Definition BOM_UTF8 : bytes := [xef; xbb; xbf].

Definition decode_utf_8_sig_replace (raw : bytes) : result str :=
  if startswith BOM_UTF8 raw
  then decode_utf_8_replace (skipn 3 raw)
  else decode_utf_8_replace raw.

(** ** The [utf-16] codec, [errors="strict"]

    [PyUnicode_DecodeUTF16Stateful] with byte order 0: the first two bytes
    choose the byte order when they are a BOM, and are then skipped; the
    rest is read two bytes at a time, a high surrogate taking the next
    unit as its low surrogate. Every error raises [UnicodeDecodeError]. *)

Inductive byteorder := LittleEndian | BigEndian.

Definition code_unit (bo : byteorder) (b0 b1 : byte) : N :=
  match bo with
  | LittleEndian => b2n b1 * 0x100 + b2n b0
  | BigEndian => b2n b0 * 0x100 + b2n b1
  end.

Definition is_surrogate (ch : N) : bool := (0xD800 <=? ch) && (ch <=? 0xDFFF).
Definition is_high_surrogate (ch : N) : bool :=
  (0xD800 <=? ch) && (ch <=? 0xDBFF).
Definition is_low_surrogate (ch : N) : bool :=
  (0xDC00 <=? ch) && (ch <=? 0xDFFF).

Definition join_surrogates (hi lo : N) : codepoint :=
  0x10000 + (hi - 0xD800) * 0x400 + (lo - 0xDC00).

Definition codec_name (bo : byteorder) : string :=
  match bo with
  | LittleEndian => "utf-16-le"
  | BigEndian => "utf-16-be"
  end.

Fixpoint utf16_decode_strict (bo : byteorder) (q : bytes) : result str :=
  match q with
  | [] => Ok []
  | [_] => Raise (UnicodeDecodeError (codec_name bo) TruncatedData)
  | b0 :: b1 :: q2 =>
    let ch := code_unit bo b0 b1 in
    if negb (is_surrogate ch) then
      rmap (cons ch) (utf16_decode_strict bo q2)
    else if negb (is_high_surrogate ch) then
      Raise (UnicodeDecodeError (codec_name bo) IllegalEncoding)
    else
      match q2 with
      | b2 :: b3 :: q4 =>
        let ch2 := code_unit bo b2 b3 in
        if is_low_surrogate ch2 then
          rmap (cons (join_surrogates ch ch2)) (utf16_decode_strict bo q4)
        else Raise (UnicodeDecodeError (codec_name bo) IllegalUTF16Surrogate)
      | _ => Raise (UnicodeDecodeError (codec_name bo) UnexpectedEndOfData)
      end
  end.

(** The byte order of the machine, used when the data has no BOM. The
    script calls the codec only on data that starts with one. *)
Definition native_byteorder : byteorder := LittleEndian.

(** [bytes.decode("utf-16")]. *)
Definition decode_utf_16 (raw : bytes) : result str :=
  match raw with
  | b0 :: b1 :: rest =>
    let bom := code_unit LittleEndian b0 b1 in
    if bom =? 0xFEFF then utf16_decode_strict LittleEndian rest
    else if bom =? 0xFFFE then utf16_decode_strict BigEndian rest
    else utf16_decode_strict native_byteorder raw
  | _ => utf16_decode_strict native_byteorder raw
  end.

(** ** [read_text] (lines 6-12), on the bytes [path.read_bytes()] gave *)

Definition decode_bytes (raw : bytes) : result str :=
  if startswith [xff; xfe] raw || startswith [xfe; xff] raw then
    decode_utf_16 raw
  else if startswith [xef; xbb; xbf] raw then
    decode_utf_8_sig_replace raw
  else
    decode_utf_8_replace raw.

(** ** [re.sub] for the patterns of [REPLACEMENTS]

    Every pattern of the script is an alternation of literal strings: the
    only regular-expression syntax in them is [|] and the escaped quote
    of lines 20-22 (a backslash before a character that is no ASCII
    letter or digit stands for that character). [re_compile] reads this
    fragment and refuses the rest. *)

Definition alternation := list str.

Definition is_ascii_alnum (c : codepoint) : bool :=
  ((0x30 <=? c) && (c <=? 0x39))
  || ((0x41 <=? c) && (c <=? 0x5A))
  || ((0x61 <=? c) && (c <=? 0x7A)).

(** The characters [. ^ $ * + ? { } [ ] ( )]. *)
Definition is_special (c : codepoint) : bool :=
  existsb (N.eqb c) (lit ".^$*+?{}[]()").

(** [re_branches cur p]: the alternatives of [p], [cur] being the
    characters (reversed) of the alternative that is being read. *)
Fixpoint re_branches (cur : str) (p : str) : option alternation :=
  match p with
  | [] => Some [rev cur]
  | c :: p' =>
    if c =? 0x7C (* | *) then
      option_map (cons (rev cur)) (re_branches [] p')
    else if c =? 0x5C (* backslash *) then
      match p' with
      | e :: p'' =>
        if is_ascii_alnum e then None else re_branches (e :: cur) p''
      | [] => None
      end
    else if is_special c then None
    else re_branches (c :: cur) p'
  end.

Definition re_compile (pattern : str) : option alternation :=
  match re_branches [] pattern with
  | Some alts => if forallb (fun a => negb (Nat.eqb (length a) 0)) alts
                 then Some alts else None
  | None => None
  end.

(** The replacement string of [re.sub] is a template; one without a
    backslash stands for itself. *)
Definition literal_template (repl : str) : bool :=
  negb (existsb (N.eqb 0x5C) repl).

Fixpoint str_startswith (prefix s : str) : bool :=
  match prefix, s with
  | [], _ => true
  | p :: prefix', c :: s' => (p =? c) && str_startswith prefix' s'
  | _ :: _, [] => false
  end.

(** The alternatives are tried in order at a position; the first that
    matches there is the match. *)
Definition match_here (alts : alternation) (s : str) : option nat :=
  option_map (@length codepoint) (find (fun a => str_startswith a s) alts).

(** [sub_from alts repl skip s]: the scan of [re.sub] over [s], the next
    [skip] characters belonging to the match just replaced. *)
Fixpoint sub_from (alts : alternation) (repl : str) (skip : nat) (s : str)
  : str :=
  match s with
  | [] => []
  | c :: s' =>
    match skip with
    | S k => sub_from alts repl k s'
    | O =>
      match match_here alts s with
      | Some n => repl ++ sub_from alts repl (n - 1) s'
      | None => c :: sub_from alts repl 0 s'
      end
    end
  end.

(** [re.sub(pattern, repl, text)] for a compiled alternation of non-empty
    literals: every leftmost non-overlapping match is replaced. *)
Definition re_sub (alts : alternation) (repl : str) (text : str) : str :=
  sub_from alts repl 0 text.

(** ** [REPLACEMENTS] (lines 15-23) *)

(** The pattern strings, code point by code point ([0x7C] is [|],
    [0x5C 0x22] the escaped quote of the raw string literals). *)

(** Line 17: ÔÇô | ÔÇö | â€“ | â€”, an en or em dash read as code page 850
    or as Windows-1252. *)
Definition pattern_dash : str :=
  [0xD4; 0xC7; 0xF4; 0x7C; 0xD4; 0xC7; 0xF6; 0x7C;
   0xE2; 0x20AC; 0x201C; 0x7C; 0xE2; 0x20AC; 0x201D].

(** Line 18: ÔÇª | â€¦, an ellipsis read the same two ways. *)
Definition pattern_ellipsis : str :=
  [0xD4; 0xC7; 0xAA; 0x7C; 0xE2; 0x20AC; 0xA6].

(** Lines 20-22: U+0627, a quote, U+0627, U+062E, then [a] and U+064F,
    then [a] alone, then neither. *)
Definition pattern_quote3 : str :=
  [0x627; 0x5C; 0x22; 0x627; 0x62E; 0x61; 0x64F].
Definition pattern_quote2 : str :=
  [0x627; 0x5C; 0x22; 0x627; 0x62E; 0x61].
Definition pattern_quote1 : str :=
  [0x627; 0x5C; 0x22; 0x627; 0x62E].

Definition REPLACEMENTS : list (str * str) :=
  [ (pattern_dash, lit "-");
    (pattern_ellipsis, lit "...");
    (pattern_quote3, lit "-");
    (pattern_quote2, lit "-");
    (pattern_quote1, lit "-") ].

Definition compile_rule (r : str * str) : option (alternation * str) :=
  match re_compile (fst r) with
  | Some alts => if literal_template (snd r) then Some (alts, snd r) else None
  | None => None
  end.

Fixpoint compile_rules (rs : list (str * str))
  : option (list (alternation * str)) :=
  match rs with
  | [] => Some []
  | r :: rs' =>
    match compile_rule r, compile_rules rs' with
    | Some c, Some cs => Some (c :: cs)
    | _, _ => None
    end
  end.

(** The rules as [re] compiles them. *)
Definition RULES : list (alternation * str) :=
  match compile_rules REPLACEMENTS with
  | Some rs => rs
  | None => []
  end.

(** Lines 33-34: [for pattern, repl in REPLACEMENTS: text = re.sub(...)]. *)
Definition apply_rules (rules : list (alternation * str)) (text : str) : str :=
  fold_left (fun t r => re_sub (fst r) (snd r) t) rules text.

Definition repair (text : str) : str := apply_rules RULES text.

(** ** Writing text: newline translation and the [utf-8] encoder *)

Inductive os := Posix | Windows.

(** [os.linesep]. *)
Definition linesep (o : os) : str :=
  match o with
  | Posix => [0x0A]
  | Windows => [0x0D; 0x0A]
  end.

(** A text file opened for writing with [newline=None] writes every
    ["\n"] as [os.linesep]. *)
Definition translate_newlines (o : os) (text : str) : str :=
  flat_map (fun c => if c =? 0x0A then linesep o else [c]) text.

Definition n2b (n : N) : byte :=
  match Byte.of_N n with
  | Some b => b
  | None => x00
  end.

Definition utf8_encode_char (c : codepoint) : result bytes :=
  if c <? 0x80 then Ok [n2b c]
  else if c <? 0x800 then
    Ok [n2b (0xC0 + c / 0x40); n2b (0x80 + c mod 0x40)]
  else if c <? 0x10000 then
    if is_surrogate c then Raise (UnicodeEncodeError c)
    else Ok [n2b (0xE0 + c / 0x1000); n2b (0x80 + (c / 0x40) mod 0x40);
             n2b (0x80 + c mod 0x40)]
  else
    Ok [n2b (0xF0 + c / 0x40000); n2b (0x80 + (c / 0x1000) mod 0x40);
        n2b (0x80 + (c / 0x40) mod 0x40); n2b (0x80 + c mod 0x40)].

(** [str.encode("utf-8")], strict. *)
Fixpoint encode_utf_8 (text : str) : result bytes :=
  match text with
  | [] => Ok []
  | c :: text' =>
    rbind (utf8_encode_char c) (fun bs =>
    rmap (app bs) (encode_utf_8 text'))
  end.

(** ** [argparse]: the parser of lines 27-30

    [ArgumentParser()] with [-h]/[--help] and the two options added by
    the script, both taking one argument and both required. The model
    follows [ArgumentParser._parse_known_args] of CPython 3.11: every
    token before a [--] is classified by [_parse_optional] (an option of
    the parser, exactly, with [=value], or as an unambiguous prefix of a
    long option; a positional; an unknown option), then the tokens are
    consumed left to right. *)

Inductive action := HelpAction | StoreIn | StoreOut.

Definition option_string_actions : list (str * action) :=
  [ (lit "-h", HelpAction); (lit "--help", HelpAction);
    (lit "--in", StoreIn); (lit "--out", StoreOut) ].

Fixpoint str_eqb (a b : str) : bool :=
  match a, b with
  | [], [] => true
  | x :: a', y :: b' => (x =? y) && str_eqb a' b'
  | _, _ => false
  end.

Definition lookup_option (s : str) : option action :=
  option_map snd (find (fun p => str_eqb (fst p) s) option_string_actions).

(** [s.split('=', 1)] when [s] has an [=]. *)
Fixpoint split_eq (s : str) : option (str * str) :=
  match s with
  | [] => None
  | c :: s' =>
    if c =? 0x3D then Some ([], s')
    else option_map (fun p => (c :: fst p, snd p)) (split_eq s')
  end.

(** What the runtime is: the operating system, and the decimal digits of
    its Unicode database (the characters [\d] matches). *)
Record runtime := {
  rt_os : os;
  rt_decimal : codepoint -> bool
}.

(** [_negative_number_matcher]: ['^-\d+$|^-\d*\.\d+$']; [$] also matches
    before a final newline. *)
Fixpoint digits_dot_digits (digit : codepoint -> bool) (s : str) : bool :=
  match s with
  | [] => false
  | c :: s' =>
    ((c =? 0x2E) && negb (Nat.eqb (length s') 0) && forallb digit s')
    || (digit c && digits_dot_digits digit s')
  end.

Definition negative_number_body (digit : codepoint -> bool) (s : str)
  : bool :=
  match s with
  | 0x2D :: body =>
    (negb (Nat.eqb (length body) 0) && forallb digit body)
    || digits_dot_digits digit body
  | _ => false
  end.

Definition negative_number_like (rt : runtime) (arg : str) : bool :=
  negative_number_body (rt_decimal rt) arg
  || match rev arg with
     | 0x0A :: r => negative_number_body (rt_decimal rt) (rev r)
     | _ => false
     end.

Inductive parsed :=
| Positional
| Optional (a : option action) (option_string : str)
           (explicit_arg : option str)
| Ambiguous.

(** [_get_option_tuples]. *)
Definition get_option_tuples (arg : str)
  : list (action * str * option str) :=
  match arg with
  | c0 :: c1 :: _ =>
    if (c0 =? 0x2D) && (c1 =? 0x2D) then
      let pe := match split_eq arg with
                | Some (p, e) => (p, Some e)
                | None => (arg, None)
                end in
      flat_map (fun oa =>
                  if str_startswith (fst pe) (fst oa)
                  then [(snd oa, fst oa, snd pe)] else [])
               option_string_actions
    else
      flat_map (fun oa =>
                  if str_eqb (fst oa) (firstn 2 arg)
                  then [(snd oa, fst oa, Some (skipn 2 arg))]
                  else if str_startswith arg (fst oa)
                  then [(snd oa, fst oa, None)] else [])
               option_string_actions
  | _ => []
  end.

(** [_parse_optional]. *)
Definition parse_optional (rt : runtime) (arg : str) : parsed :=
  match arg with
  | [] => Positional
  | c0 :: _ =>
    if negb (c0 =? 0x2D) then Positional
    else
      match lookup_option arg with
      | Some a => Optional (Some a) arg None
      | None =>
        if Nat.eqb (length arg) 1 then Positional
        else
          match match split_eq arg with
                | Some (o, e) =>
                  option_map (fun a => (a, o, e)) (lookup_option o)
                | None => None
                end with
          | Some (a, o, e) => Optional (Some a) o (Some e)
          | None =>
            match get_option_tuples arg with
            | _ :: _ :: _ => Ambiguous
            | [(a, o, e)] => Optional (Some a) o e
            | [] =>
              if negative_number_like rt arg then Positional
              else if existsb (N.eqb 0x20) arg then Positional
              else Optional None arg None
            end
          end
      end
  end.

(** The value [_get_values] stores for one argument string: the string,
    but the empty list for the string [--], which it strips. *)
Inductive argval := StrVal (s : str) | EmptyList.

Definition value_of (s : str) : argval :=
  if str_eqb s (lit "--") then EmptyList else StrVal s.

Record namespace := {
  in_path : option argval;
  out_path : option argval
}.

Definition store (a : action) (v : argval) (ns : namespace) : namespace :=
  match a with
  | StoreIn => {| in_path := Some v; out_path := out_path ns |}
  | StoreOut => {| in_path := in_path ns; out_path := Some v |}
  | HelpAction => ns
  end.

Inductive argparse_error :=
| AmbiguousOption (arg : str)
| ExpectedOneArgument (a : action)
| IgnoredExplicitArgument (a : action)
| RequiredArguments (missing : list action)
| UnrecognizedArguments (extras : list str).

Inductive parse_outcome :=
| Parsed (ns : namespace)
| HelpExit
| ErrorExit (e : argparse_error).

(** [-h] followed by more characters in the same token: each must again
    be a single-dash option without argument, and [-h] is the only one. *)
Fixpoint consume_short_help (explicit_arg : str) : parse_outcome :=
  match explicit_arg with
  | [] => ErrorExit (IgnoredExplicitArgument HelpAction)
  | c :: e' =>
    match lookup_option [0x2D; c] with
    | Some HelpAction =>
      match e' with
      | [] => HelpExit
      | _ :: _ => consume_short_help e'
      end
    | _ => ErrorExit (IgnoredExplicitArgument HelpAction)
    end
  end.

Definition is_long (option_string : str) : bool :=
  match option_string with
  | _ :: c1 :: _ => c1 =? 0x2D
  | _ => false
  end.

(** The end of [_parse_known_args] and of [parse_args]: required options
    first, then the tokens nothing consumed. *)
Definition finish (ns : namespace) (extras : list str) : parse_outcome :=
  let missing :=
    match in_path ns with Some _ => [] | None => [StoreIn] end
    ++ match out_path ns with Some _ => [] | None => [StoreOut] end in
  match missing, extras with
  | _ :: _, _ => ErrorExit (RequiredArguments missing)
  | [], _ :: _ => ErrorExit (UnrecognizedArguments extras)
  | [], [] => Parsed ns
  end.

(** A token an option can take as its argument: classified ['A']. *)
Definition is_argument (rt : runtime) (v : str) : bool :=
  negb (str_eqb v (lit "--"))
  && match parse_optional rt v with
     | Positional => true
     | _ => false
     end.

Fixpoint consume (rt : runtime) (args : list str) (ns : namespace)
  (extras : list str) : parse_outcome :=
  match args with
  | [] => finish ns extras
  | arg :: rest =>
    if str_eqb arg (lit "--") then finish ns (extras ++ args)
    else
      match parse_optional rt arg with
      | Ambiguous => ErrorExit (AmbiguousOption arg)
      | Positional | Optional None _ _ =>
        consume rt rest ns (extras ++ [arg])
      | Optional (Some HelpAction) option_string explicit_arg =>
        match explicit_arg with
        | None => HelpExit
        | Some e =>
          if is_long option_string
          then ErrorExit (IgnoredExplicitArgument HelpAction)
          else consume_short_help e
        end
      | Optional (Some a) _ (Some e) =>
        consume rt rest (store a (value_of e) ns) extras
      | Optional (Some a) _ None =>
        match rest with
        | v :: rest' =>
          if is_argument rt v
          then consume rt rest' (store a (StrVal v) ns) extras
          else ErrorExit (ExpectedOneArgument a)
        | [] => ErrorExit (ExpectedOneArgument a)
        end
      end
  end.

(** The classification pass reports an ambiguous prefix before any token
    is consumed. *)
Fixpoint first_ambiguous (rt : runtime) (args : list str) : option str :=
  match args with
  | [] => None
  | arg :: rest =>
    if str_eqb arg (lit "--") then None
    else
      match parse_optional rt arg with
      | Ambiguous => Some arg
      | _ => first_ambiguous rt rest
      end
  end.

Definition parse_args (rt : runtime) (argv : list str) : parse_outcome :=
  match first_ambiguous rt argv with
  | Some arg => ErrorExit (AmbiguousOption arg)
  | None =>
    consume rt argv {| in_path := None; out_path := None |} []
  end.

(** ** The world: files, and what the process did

    [files] gives the bytes [read_bytes] returns for a path that can be
    read; [denied] holds the paths whose writing fails: a path of
    [denied] for which [short_write] has no entry cannot be opened for
    writing, and one for which it gives [n] is opened, which empties the
    file, takes the first [n] bytes of what is written (all of it when
    it is shorter), and fails before the file is closed (a full device,
    a file size limit, an input/output error); [trace] records, latest
    first, every file the process opened and every message it printed.

    A key of [files] stands for a file: two paths are two files. What
    the file system makes of two spellings of one file ([in] and
    [./in], links) is outside this model. *)

Inductive stream := Stdout | Stderr.

Inductive message :=
| HelpText
| UsageText
| ErrorText (e : argparse_error)
| TracebackText (e : exn).

Inductive event :=
| EvOpenRead (path : str)
| EvOpenWrite (path : str)
| EvPrint (s : stream) (m : message).

Record world := {
  files : gmap (list N) (list byte);
  denied : gset (list N);
  trace : list event;
  short_write : gmap (list N) nat
}.

Definition IO (A : Type) := world -> result A * world.

Definition ret {A} (a : A) : IO A := fun w => (Ok a, w).

Definition raise {A} (e : exn) : IO A := fun w => (Raise e, w).

Definition bind {A B} (m : IO A) (k : A -> IO B) : IO B :=
  fun w =>
    match m w with
    | (Ok a, w') => k a w'
    | (Raise e, w') => (Raise e, w')
    end.

Notation "x <- m ;; k" := (bind m (fun x => k))
  (at level 100, m at next level, right associativity, only parsing).
Notation "m >> k" := (bind m (fun _ => k))
  (at level 100, k at level 200, right associativity, only parsing).

Definition lift {A} (r : result A) : IO A := fun w => (r, w).

Definition emit (e : event) : IO unit :=
  fun w => (Ok tt, {| files := files w; denied := denied w;
                      trace := e :: trace w;
                      short_write := short_write w |}).

Definition set_file (p : str) (data : bytes) : IO unit :=
  fun w => (Ok tt, {| files := <[p := data]> (files w); denied := denied w;
                      trace := trace w;
                      short_write := short_write w |}).

(** [Path.read_bytes]. *)
Definition read_bytes (p : str) : IO bytes :=
  emit (EvOpenRead p) >>
  fun w =>
    match files w !! p with
    | Some data => (Ok data, w)
    | None => (Raise (OSError p), w)
    end.

(** [Path.write_text(text, encoding="utf-8")]: the file is opened with
    mode [w], which empties it, and the text is written through a text
    layer that translates newlines and encodes strictly. The open can
    fail, which leaves the file as it was; the write (or the flush when
    the file is closed) can fail after the open, which leaves in the
    file the bytes that were taken. Both raise [OSError]. *)
Definition write_text (rt : runtime) (p : str) (text : str) : IO unit :=
  emit (EvOpenWrite p) >>
  fun w =>
    if decide (p ∈ denied w) then
      match short_write w !! p with
      | None => (Raise (OSError p), w)
      | Some n =>
        (set_file p [] >>
         data <- lift (encode_utf_8 (translate_newlines (rt_os rt) text)) ;;
         set_file p (firstn n data) >>
         raise (OSError p)) w
      end
    else
      (set_file p [] >>
       data <- lift (encode_utf_8 (translate_newlines (rt_os rt) text)) ;;
       set_file p data) w.

(** [Path(value)]: a path from a string, [TypeError] otherwise. The
    path is kept as it is spelled: [pathlib] would drop a leading [./],
    and the file system decides which spellings name one file. *)
Definition Path (v : option argval) : IO str :=
  match v with
  | Some (StrVal s) => ret s
  | _ => raise TypeError
  end.

(** [parser.parse_args()]: help goes to standard output with status 0, an
    error to standard error, after the usage line, with status 2. *)
Definition parse_args_io (rt : runtime) (argv : list str) : IO namespace :=
  match parse_args rt argv with
  | Parsed ns => ret ns
  | HelpExit =>
    emit (EvPrint Stdout HelpText) >> raise (SystemExit 0)
  | ErrorExit e =>
    emit (EvPrint Stderr UsageText) >>
    emit (EvPrint Stderr (ErrorText e)) >>
    raise (SystemExit 2)
  end.

(** ** The script *)

(** Lines 6-12. *)
Definition read_text (path : str) : IO str :=
  raw <- read_bytes path ;;
  lift (decode_bytes raw).

(** Lines 26-36. *)
Definition main (rt : runtime) (argv : list str) : IO Z :=
  args <- parse_args_io rt argv ;;
  inp <- Path (in_path args) ;;
  text <- read_text inp ;;
  let text := apply_rules RULES text in
  outp <- Path (out_path args) ;;
  write_text rt outp text >>
  ret 0%Z.

(** Lines 39-40, [raise SystemExit(main())]: the exit status of the
    process and the world it leaves. An exception nothing catches prints
    a traceback and gives status 1. *)
Definition run (rt : runtime) (argv : list str) (w : world) : Z * world :=
  match main rt argv w with
  | (Ok status, w') => (status, w')
  | (Raise (SystemExit status), w') => (status, w')
  | (Raise e, w') =>
    (1%Z, {| files := files w'; denied := denied w';
             trace := EvPrint Stderr (TracebackText e) :: trace w';
             short_write := short_write w' |})
  end.

(** ** The Unicode Standard's definitions

    Written independently of the decoders above, to state what they
    compute: well-formed UTF-8 (Table 3-7) with the scalar value a
    sequence encodes (Table 3-6), the substitution of U+FFFD for each
    maximal subpart of an ill-formed subsequence (D93b), and the UTF-16
    encoding form with its two byte orders. *)

Definition is_scalar_value (c : codepoint) : bool :=
  (c <=? 0x10FFFF) && negb (is_surrogate c).

Definition in_range (lo hi : N) (b : byte) : bool :=
  (lo <=? b2n b) && (b2n b <=? hi).

Definition well_formed_sequence (w : bytes) : bool :=
  match w with
  | [a] => in_range 0x00 0x7F a
  | [a; b] => in_range 0xC2 0xDF a && in_range 0x80 0xBF b
  | [a; b; c] =>
    (in_range 0xE0 0xE0 a && in_range 0xA0 0xBF b && in_range 0x80 0xBF c)
    || (in_range 0xE1 0xEC a && in_range 0x80 0xBF b && in_range 0x80 0xBF c)
    || (in_range 0xED 0xED a && in_range 0x80 0x9F b && in_range 0x80 0xBF c)
    || (in_range 0xEE 0xEF a && in_range 0x80 0xBF b && in_range 0x80 0xBF c)
  | [a; b; c; d] =>
    (in_range 0xF0 0xF0 a && in_range 0x90 0xBF b && in_range 0x80 0xBF c
     && in_range 0x80 0xBF d)
    || (in_range 0xF1 0xF3 a && in_range 0x80 0xBF b && in_range 0x80 0xBF c
        && in_range 0x80 0xBF d)
    || (in_range 0xF4 0xF4 a && in_range 0x80 0x8F b && in_range 0x80 0xBF c
        && in_range 0x80 0xBF d)
  | _ => false
  end.

Definition scalar_of (w : bytes) : codepoint :=
  match w with
  | [a] => b2n a
  | [a; b] => (b2n a mod 0x20) * 0x40 + b2n b mod 0x40
  | [a; b; c] =>
    (b2n a mod 0x10) * 0x1000 + (b2n b mod 0x40) * 0x40 + b2n c mod 0x40
  | [a; b; c; d] =>
    (b2n a mod 0x08) * 0x40000 + (b2n b mod 0x40) * 0x1000
    + (b2n c mod 0x40) * 0x40 + b2n d mod 0x40
  | _ => 0
  end.

(** [utf8_encodes raw text]: [raw] is well-formed UTF-8 and encodes
    [text]. *)
Inductive utf8_encodes : bytes -> str -> Prop :=
| encodes_nil : utf8_encodes [] []
| encodes_cons w r t :
    well_formed_sequence w = true ->
    utf8_encodes r t ->
    utf8_encodes (w ++ r) (scalar_of w :: t).

Definition valid_utf8 (raw : bytes) : Prop := exists t, utf8_encodes raw t.

(** No well-formed sequence starts [s]: its first offset is
    unconvertible. *)
Definition unconvertible (s : bytes) : Prop :=
  forall w r, s = w ++ r -> well_formed_sequence w = false.

Definition initial_subsequence (p : bytes) : Prop :=
  exists q, well_formed_sequence (p ++ q) = true.

(** [m] is the maximal subpart at the start of [m ++ r]: the longest
    prefix that starts a well-formed sequence, or one byte. *)
Definition maximal_subpart (m r : bytes) : Prop :=
  m <> []
  /\ (initial_subsequence m \/ length m = 1%nat)
  /\ forall m' r', m ++ r = m' ++ r' -> (length m < length m')%nat ->
                   ~ initial_subsequence m'.

Inductive decodes_with_replacement : bytes -> str -> Prop :=
| dwr_nil : decodes_with_replacement [] []
| dwr_scalar w r t :
    well_formed_sequence w = true ->
    decodes_with_replacement r t ->
    decodes_with_replacement (w ++ r) (scalar_of w :: t)
| dwr_replace m r t :
    unconvertible (m ++ r) ->
    maximal_subpart m r ->
    decodes_with_replacement r t ->
    decodes_with_replacement (m ++ r) (REPLACEMENT_CHARACTER :: t).

(** UTF-16: one unit below U+10000, a surrogate pair from there on; the
    byte order says which byte of a unit comes first. *)
Definition utf16_units (c : codepoint) : list N :=
  if c <? 0x10000 then [c]
  else [0xD800 + (c - 0x10000) / 0x400; 0xDC00 + (c - 0x10000) mod 0x400].

Definition unit_bytes (bo : byteorder) (u : N) : bytes :=
  match bo with
  | LittleEndian => [n2b (u mod 0x100); n2b (u / 0x100)]
  | BigEndian => [n2b (u / 0x100); n2b (u mod 0x100)]
  end.

Definition utf16_encode (bo : byteorder) (text : str) : bytes :=
  flat_map (fun c => flat_map (unit_bytes bo) (utf16_units c)) text.

Definition BOM_UTF16 (bo : byteorder) : bytes :=
  match bo with
  | LittleEndian => [xff; xfe]
  | BigEndian => [xfe; xff]
  end.

(** ** Occurrences of a pattern; the flags of a command line *)

(** Some alternative of [alts] occurs somewhere in [s]. *)
Fixpoint occurs (alts : alternation) (s : str) : bool :=
  match s with
  | [] => false
  | _ :: s' =>
    match match_here alts s with
    | Some _ => true
    | None => occurs alts s'
    end
  end.

(** No pattern of the rules occurs in [s]. *)
Definition clean (rules : list (alternation * str)) (s : str) : bool :=
  forallb (fun r => negb (occurs (fst r) s)) rules.





Definition is_ascii (b : byte) : bool := b2n b <? 0x80.

(** ** Side conditions on rules, all decided by computation *)

(** No alternative is empty. *)
Definition nonempty (alts : alternation) : bool :=
  forallb (fun a => negb (Nat.eqb (length a) 0)) alts.

Definition mem (c : codepoint) (s : str) : bool := existsb (N.eqb c) s.

(** No character of [chars] occurs in an alternative of [alts]. *)
Definition avoids (chars : str) (alts : alternation) : bool :=
  forallb (fun a => forallb (fun c => negb (mem c chars)) a) alts.

(** [c] starts no alternative of [alts]. *)
Definition not_head (alts : alternation) (c : codepoint) : bool :=
  forallb (fun a => match a with
                    | [] => false
                    | x :: _ => negb (x =? c)
                    end) alts.

(** No proper suffix of [p] is a prefix of [p]: two occurrences of [p]
    cannot overlap. *)
Definition unbordered (p : str) : bool :=
  forallb (fun k => negb (str_eqb (firstn k p) (skipn (length p - k) p)))
          (seq 1 (length p - 1)).

(** Every rule has non-empty alternatives and a non-empty replacement,
    and no pattern holds a character of any replacement. *)
Definition rules_ok (rules : list (alternation * str)) : bool :=
  forallb (fun r =>
             nonempty (fst r)
             && negb (Nat.eqb (length (snd r)) 0)
             && forallb (fun r' => avoids (snd r') (fst r)) rules)
          rules.

(** The longest quote-adjacent dash artifact, the text the pattern of
    line 20 matches. *)
Definition quote3 : str := [0x627; 0x22; 0x627; 0x62E; 0x61; 0x64F].

(** A runtime for examples: its decimal digits are the ASCII ones. *)
Definition example_runtime (o : os) : runtime :=
  {| rt_os := o; rt_decimal := fun c => (0x30 <=? c) && (c <=? 0x39) |}.

(** The input starts with two byte-order marks of one encoding; the
    decoder removes the first only. *)
Definition second_bom (raw : bytes) : bool :=
  startswith [xff; xfe; xff; xfe] raw
  || startswith [xfe; xff; xfe; xff] raw
  || startswith [xef; xbb; xbf; xef; xbb; xbf] raw.



(** The world after the process added [events] (latest first) to its
    trace and changed nothing else. *)
Definition with_events (events : list event) (w : world) : world :=
  {| files := files w; denied := denied w; trace := events ++ trace w;
     short_write := short_write w |}.

(** The world a successful run leaves: the input was read, the output
    file was opened and holds [out]. *)
Definition written (inp outp : str) (out : bytes) (w : world) : world :=
  {| files := <[outp := out]> (<[outp := []]> (files w));
     denied := denied w;
     trace := EvOpenWrite outp :: EvOpenRead inp :: trace w;
     short_write := short_write w |}.

(** ** Concrete worlds for the examples *)

(** A world with one file, in which every path can be written. *)
Definition file_world (p : str) (raw : bytes) : world :=
  {| files := {[ p := raw ]}; denied := ∅; trace := [];
     short_write := ∅ |}.

(** [--in in --out out]. *)
Definition example_argv : list str :=
  [lit "--in"; lit "in"; lit "--out"; lit "out"].

(** ** One pass over the text

    What the five calls of [re.sub] amount to, written as a single scan:
    the artifacts are the alternatives of the rules, in the order of the
    rules, each with the replacement of its rule; at every position the
    first artifact of that list that starts there is replaced, and the
    scan resumes after it. *)

Definition artifacts (rules : list (alternation * str)) : list (str * str) :=
  flat_map (fun r => List.map (fun a => (a, snd r)) (fst r)) rules.

Definition artifact_here (arts : list (str * str)) (s : str)
  : option (str * str) :=
  find (fun p => str_startswith (fst p) s) arts.

Fixpoint replace_from (arts : list (str * str)) (skip : nat) (s : str)
  : str :=
  match s with
  | [] => []
  | c :: s' =>
    match skip with
    | S k => replace_from arts k s'
    | O =>
      match artifact_here arts s with
      | Some (a, r) => r ++ replace_from arts (length a - 1) s'
      | None => c :: replace_from arts 0 s'
      end
    end
  end.

Definition replace_artifacts (arts : list (str * str)) (s : str) : str :=
  replace_from arts 0 s.

(** ** Side conditions on a word and a pattern, decided by computation *)

(** [a] and [b] differ at a position both have. *)
Fixpoint clash (a b : str) : bool :=
  match a, b with
  | x :: a', y :: b' => negb (x =? y) || clash a' b'
  | _, _ => false
  end.

(** No alternative matches at a position of [w], whatever follows [w]. *)
Definition untouched (alts : alternation) (w : str) : bool :=
  forallb (fun k => forallb (fun a => clash a (skipn k w)) alts)
          (seq 0 (length w)).

(** No alternative that starts before [w] reaches into it. *)
Definition no_straddle (alts : alternation) (w : str) : bool :=
  forallb (fun a => forallb (fun k => clash (skipn k a) w)
                            (seq 1 (length a - 1))) alts.

(** [c] is no character of a pattern of the rules. *)
Definition foreign (rules : list (alternation * str)) (c : codepoint)
  : bool :=
  forallb (fun r => avoids [c] (fst r)) rules.

(** ** Bytes written for a newline; a file without its signature *)

Definition linesep_bytes (o : os) : bytes :=
  match o with
  | Posix => [x0a]
  | Windows => [x0d; x0a]
  end.

(** [raw] with every line feed written as the line separator. *)
Definition newline_bytes (o : os) (raw : bytes) : bytes :=
  flat_map (fun b => if byte_eqb b x0a then linesep_bytes o else [b]) raw.

(** [raw] without a leading EF BB BF. *)
Definition without_signature (raw : bytes) : bytes :=
  if startswith BOM_UTF8 raw then skipn 3 raw else raw.

(** [c] is in no pattern after its first character. *)
Definition inner_free (rules : list (alternation * str)) (c : codepoint)
  : bool :=
  forallb (fun r => forallb (fun a => negb (mem c (tl a))) (fst r)) rules.

(** A text before which another can be cut off: it is empty, or its
    first character cannot continue a pattern. *)
Definition boundary (rules : list (alternation * str)) (z : str) : bool :=
  match z with
  | [] => true
  | c :: _ => inner_free rules c
  end.

(** No replacement is longer than what it replaces. *)
Definition shrinking (rules : list (alternation * str)) : bool :=
  forallb (fun r => forallb (fun a => (length (snd r) <=? length a)%nat)
                            (fst r)) rules.

(** ** How a run can fail *)

(** The exceptions a run can end with. *)
Definition run_error_kind (e : exn) : bool :=
  match e with
  | UnicodeDecodeError _ _ | OSError _ | TypeError => true
  | UnicodeEncodeError _ | SystemExit _ => false
  end.

(** A world with one file in which the path [out] cannot be opened for
    writing. *)
Definition locked_world (p : str) (raw : bytes) : world :=
  {| files := {[ p := raw ]}; denied := {[ lit "out" ]}; trace := [];
     short_write := ∅ |}.

(** A world with one file in which the path [out] can be opened, and
    takes [n] bytes before the write fails. *)
Definition short_world (p : str) (raw : bytes) (n : nat) : world :=
  {| files := {[ p := raw ]}; denied := {[ lit "out" ]}; trace := [];
     short_write := {[ lit "out" := n ]} |}.

(** ** Proof automation *)

(** [lia] after division and remainder by numerals are spelled out. *)
Ltac dlia := zify; Z.to_euclidean_division_equations; lia.

Ltac split_ifs :=
  repeat match goal with
         | |- context [if ?c then _ else _] => destruct c eqn:?
         | H : context [if ?c then _ else _] |- _ => destruct c eqn:?
         end.




(** * Proofs *)

(** *** Bytes as numbers *)

Lemma b2n_lt b : b2n b < 256.
Proof. unfold b2n. pose proof (Byte.to_N_bounded b). lia. Qed.

Lemma n2b_b2n b : n2b (b2n b) = b.
Proof. unfold n2b, b2n. now rewrite Byte.of_to_N. Qed.

Lemma b2n_n2b n : n < 256 -> b2n (n2b n) = n.
Proof.
  intros H. unfold n2b, b2n.
  destruct (Byte.of_N n) eqn:E.
  - now apply Byte.to_of_N.
  - apply Byte.of_N_None_iff in E. lia.
Qed.

Lemma b2n_inj a b : b2n a = b2n b -> a = b.
Proof. intros H. rewrite <- (n2b_b2n a), <- (n2b_b2n b). now rewrite H. Qed.

(** *** Well-formed sequences, by length *)

Lemma wf1_iff a : well_formed_sequence [a] = true <-> b2n a < 0x80.
Proof. unfold well_formed_sequence, in_range. lia. Qed.

Lemma wf2_iff a b :
  well_formed_sequence [a; b] = true
  <-> 0xC2 <= b2n a < 0xE0 /\ is_continuation b = true.
Proof. unfold well_formed_sequence, in_range, is_continuation. lia. Qed.

Lemma wf3_iff a b c :
  well_formed_sequence [a; b; c] = true
  <-> 0xE0 <= b2n a < 0xF0 /\ bad_second3 (b2n a) b = false
      /\ is_continuation c = true.
Proof.
  unfold well_formed_sequence, in_range, bad_second3, is_continuation.
  split_ifs; lia.
Qed.

Lemma wf4_iff a b c d :
  well_formed_sequence [a; b; c; d] = true
  <-> 0xF0 <= b2n a < 0xF5 /\ bad_second4 (b2n a) b = false
      /\ is_continuation c = true /\ is_continuation d = true.
Proof.
  unfold well_formed_sequence, in_range, bad_second4, is_continuation.
  split_ifs; lia.
Qed.

Lemma scalar2 a b :
  0xC2 <= b2n a < 0xE0 -> is_continuation b = true ->
  scalar_of [a; b] = join2 (b2n a) b.
Proof. unfold scalar_of, join2, is_continuation. intros. dlia. Qed.

Lemma scalar3 a b c :
  0xE0 <= b2n a < 0xF0 -> is_continuation b = true ->
  is_continuation c = true ->
  scalar_of [a; b; c] = join3 (b2n a) b c.
Proof. unfold scalar_of, join3, is_continuation. intros. dlia. Qed.

Lemma scalar4 a b c d :
  0xF0 <= b2n a < 0xF5 -> is_continuation b = true ->
  is_continuation c = true -> is_continuation d = true ->
  scalar_of [a; b; c; d] = join4 (b2n a) b c d.
Proof. unfold scalar_of, join4, is_continuation. intros. dlia. Qed.

(** *** What a well-formed sequence starts with *)

Lemma wf_inv1 a l :
  well_formed_sequence (a :: l) = true ->
  b2n a < 0x80 \/ (0xC2 <= b2n a < 0xF5 /\ l <> []).
Proof.
  destruct l as [|b [|c [|d [|e l]]]]; try discriminate.
  - rewrite wf1_iff; auto.
  - rewrite wf2_iff. intros []; right; split; [lia | discriminate].
  - rewrite wf3_iff. intros []; right; split; [lia | discriminate].
  - rewrite wf4_iff. intros []; right; split; [lia | discriminate].
Qed.

Lemma wf_inv2 a b l :
  well_formed_sequence (a :: b :: l) = true ->
  (l = [] /\ 0xC2 <= b2n a < 0xE0 /\ is_continuation b = true)
  \/ (length l = 1%nat /\ 0xE0 <= b2n a < 0xF0
      /\ bad_second3 (b2n a) b = false)
  \/ (length l = 2%nat /\ 0xF0 <= b2n a < 0xF5
      /\ bad_second4 (b2n a) b = false).
Proof.
  destruct l as [|c [|d [|e l]]]; try discriminate.
  - rewrite wf2_iff. tauto.
  - rewrite wf3_iff. cbn [length]. tauto.
  - rewrite wf4_iff. cbn [length]. tauto.
Qed.

Lemma wf_inv3 a b c l :
  well_formed_sequence (a :: b :: c :: l) = true ->
  is_continuation c = true
  /\ ((l = [] /\ 0xE0 <= b2n a < 0xF0 /\ bad_second3 (b2n a) b = false)
      \/ (length l = 1%nat /\ 0xF0 <= b2n a < 0xF5
          /\ bad_second4 (b2n a) b = false)).
Proof.
  destruct l as [|d [|e l]]; try discriminate.
  - rewrite wf3_iff. tauto.
  - rewrite wf4_iff. cbn [length]. tauto.
Qed.

Lemma wf_inv4 a b c d l :
  well_formed_sequence (a :: b :: c :: d :: l) = true ->
  is_continuation d = true /\ l = [].
Proof.
  destruct l as [|e l]; try discriminate.
  rewrite wf4_iff. tauto.
Qed.

(** *** Maximal subparts *)

Lemma unconvertible_cons b0 rest :
  (forall w r, rest = w ++ r -> well_formed_sequence (b0 :: w) = false) ->
  unconvertible (b0 :: rest).
Proof.
  intros H [|a w] r E; [reflexivity|].
  simpl in E. injection E as <- E. eauto.
Qed.

Lemma app_length_lt {A} (m r m' r' : list A) :
  m ++ r = m' ++ r' -> (length m < length m')%nat ->
  exists x k, m' = m ++ x :: k /\ r = x :: k ++ r'.
Proof.
  revert m'. induction m as [|a m IH]; intros [|a' m'] E Hl; simpl in *;
    try lia.
  - exists a', m'. subst. auto.
  - injection E as <- E. destruct (IH m' E) as (x & k & -> & ->); [lia|].
    eauto.
Qed.

(** An invalid lead byte, or a lead byte whose sequence breaks at the
    next byte, is a maximal subpart of length one. *)
Lemma maximal_one b0 r :
  (forall x l, (exists r', r = x :: r') ->
               well_formed_sequence (b0 :: x :: l) = false) ->
  maximal_subpart [b0] r.
Proof.
  intros H. split; [discriminate|]. split; [now right|].
  intros m' r' E Hl [q Hq].
  destruct (app_length_lt _ _ _ _ E Hl) as (x & k & -> & ->).
  rewrite <- app_assoc in Hq. cbn [app] in Hq.
  rewrite H in Hq; [discriminate | eauto].
Qed.

Lemma maximal_two b0 b1 r q :
  well_formed_sequence (b0 :: b1 :: q) = true ->
  (forall x l, (exists r', r = x :: r') ->
               well_formed_sequence (b0 :: b1 :: x :: l) = false) ->
  maximal_subpart [b0; b1] r.
Proof.
  intros Hq H. split; [discriminate|]. split; [left; now exists q|].
  intros m' r' E Hl [q' Hq'].
  destruct (app_length_lt _ _ _ _ E Hl) as (x & k & -> & ->).
  rewrite <- app_assoc in Hq'. cbn [app] in Hq'.
  rewrite H in Hq'; [discriminate | eauto].
Qed.

Lemma maximal_three b0 b1 b2 r q :
  well_formed_sequence (b0 :: b1 :: b2 :: q) = true ->
  (forall x l, (exists r', r = x :: r') ->
               well_formed_sequence (b0 :: b1 :: b2 :: x :: l) = false) ->
  maximal_subpart [b0; b1; b2] r.
Proof.
  intros Hq H. split; [discriminate|]. split; [left; now exists q|].
  intros m' r' E Hl [q' Hq'].
  destruct (app_length_lt _ _ _ _ E Hl) as (x & k & -> & ->).
  rewrite <- app_assoc in Hq'. cbn [app] in Hq'.
  rewrite H in Hq'; [discriminate | eauto].
Qed.

Lemma cont_x80 : is_continuation x80 = true.
Proof. reflexivity. Qed.

Ltac wf_close := cbn [length] in *; first [lia | congruence | discriminate].

Ltac wf_contra :=
  apply not_true_is_false; intros Hwf;
  first
    [ apply wf_inv4 in Hwf; destruct Hwf as (? & ?); wf_close
    | apply wf_inv3 in Hwf;
      destruct Hwf as (? & [(? & ? & ?)|(? & ? & ?)]); wf_close
    | apply wf_inv2 in Hwf;
      destruct Hwf as [(? & ? & ?)|[(? & ? & ?)|(? & ? & ?)]]; wf_close
    | apply wf_inv1 in Hwf; destruct Hwf as [?|(? & ?)]; wf_close ].

(** *** The decoder substitutes U+FFFD for maximal subparts *)

Lemma utf8_decode_replace_spec_aux n :
  forall s, (length s <= n)%nat ->
            decodes_with_replacement s (utf8_decode_replace s).
Proof.
  induction n as [|n IH]; intros s Hn.
  { destruct s; [constructor | simpl in Hn; lia]. }
  destruct s as [|b0 s1]; [constructor|].
  simpl in Hn. cbn [utf8_decode_replace]. cbv zeta.
  assert (IH1 : forall s, (length s <= length s1)%nat ->
                          decodes_with_replacement s (utf8_decode_replace s))
    by (intros; apply IH; lia).
  clear IH Hn.
  destruct (b2n b0 <? 0x80) eqn:E1.
  { apply (dwr_scalar [b0]); [apply wf1_iff; lia | auto]. }
  destruct (b2n b0 <? 0xC2) eqn:E2.
  { apply (dwr_replace [b0]); [| |auto].
    - apply unconvertible_cons. intros. wf_contra.
    - apply maximal_one. intros. wf_contra. }
  destruct (b2n b0 <? 0xE0) eqn:E3.
  { destruct s1 as [|b1 s2].
    { apply (dwr_replace [b0] []); [| |constructor].
      - apply unconvertible_cons. intros [|] ? E; [wf_contra|discriminate E].
      - apply maximal_one. intros ? ? [? ?]. discriminate. }
    destruct (is_continuation b1) eqn:C1.
    { rewrite <- scalar2 by (auto; lia).
      apply (dwr_scalar [b0; b1]); [apply wf2_iff; split; [lia|auto]|].
      apply IH1. simpl. lia. }
    apply (dwr_replace [b0]); [| |auto].
    - apply unconvertible_cons. intros [|x w] r E; [wf_contra|].
      injection E as <- E. wf_contra.
    - apply maximal_one. intros x l [r' E]. injection E as <- E. wf_contra. }
  destruct (b2n b0 <? 0xF0) eqn:E4.
  { destruct s1 as [|b1 s2].
    { apply (dwr_replace [b0] []); [| |constructor].
      - apply unconvertible_cons. intros [|] ? E; [wf_contra|discriminate E].
      - apply maximal_one. intros ? ? [? ?]. discriminate. }
    destruct (bad_second3 (b2n b0) b1) eqn:C1.
    { apply (dwr_replace [b0]); [| |auto].
      - apply unconvertible_cons. intros [|x w] r E; [wf_contra|].
        injection E as <- E. wf_contra.
      - apply maximal_one. intros x l [r' E]. injection E as <- E.
        wf_contra. }
    assert (W : well_formed_sequence [b0; b1; x80] = true).
    { apply wf3_iff. repeat split; auto; lia. }
    destruct s2 as [|b2 s3].
    { apply (dwr_replace [b0; b1] []); [| |constructor].
      - apply unconvertible_cons.
        intros [|x [|y w]] r E; try discriminate E; wf_contra.
      - apply (maximal_two _ _ _ _ W). intros ? ? [? ?]. discriminate. }
    destruct (is_continuation b2) eqn:C2.
    { assert (is_continuation b1 = true)
        by (unfold bad_second3 in C1; destruct (is_continuation b1);
            [reflexivity|discriminate]).
      rewrite <- scalar3 by (auto; lia).
      apply (dwr_scalar [b0; b1; b2]).
      - apply wf3_iff. repeat split; auto; lia.
      - apply IH1. simpl. lia. }
    apply (dwr_replace [b0; b1]).
    - apply unconvertible_cons. intros [|x [|y w]] r E; [wf_contra| |].
      + injection E as <- E. wf_contra.
      + injection E as <- <- E. wf_contra.
    - apply (maximal_two _ _ _ _ W). intros x l [r' E].
      injection E as <- E. wf_contra.
    - apply IH1. simpl. lia. }
  destruct (b2n b0 <? 0xF5) eqn:E5.
  { destruct s1 as [|b1 s2].
    { apply (dwr_replace [b0] []); [| |constructor].
      - apply unconvertible_cons. intros [|] ? E; [wf_contra|discriminate E].
      - apply maximal_one. intros ? ? [? ?]. discriminate. }
    destruct (bad_second4 (b2n b0) b1) eqn:C1.
    { apply (dwr_replace [b0]); [| |auto].
      - apply unconvertible_cons. intros [|x w] r E; [wf_contra|].
        injection E as <- E. wf_contra.
      - apply maximal_one. intros x l [r' E]. injection E as <- E.
        wf_contra. }
    assert (W : well_formed_sequence [b0; b1; x80; x80] = true).
    { apply wf4_iff. repeat split; auto; lia. }
    destruct s2 as [|b2 s3].
    { apply (dwr_replace [b0; b1] []); [| |constructor].
      - apply unconvertible_cons.
        intros [|x [|y w]] r E; try discriminate E; wf_contra.
      - apply (maximal_two _ _ _ _ W). intros ? ? [? ?]. discriminate. }
    destruct (is_continuation b2) eqn:C2; cbn [negb].
    2: { apply (dwr_replace [b0; b1]).
         - apply unconvertible_cons. intros [|x [|y w]] r E; [wf_contra| |].
           + injection E as <- E. wf_contra.
           + injection E as <- <- E. wf_contra.
         - apply (maximal_two _ _ _ _ W). intros x l [r' E].
           injection E as <- E. wf_contra.
         - apply IH1. simpl. lia. }
    assert (W3 : well_formed_sequence [b0; b1; b2; x80] = true).
    { apply wf4_iff. repeat split; auto; lia. }
    destruct s3 as [|b3 s4].
    { apply (dwr_replace [b0; b1; b2] []); [| |constructor].
      - apply unconvertible_cons.
        intros [|x [|y [|z w]]] r E; try discriminate E; wf_contra.
      - apply (maximal_three _ _ _ _ _ W3). intros ? ? [? ?]. discriminate. }
    destruct (is_continuation b3) eqn:C3.
    { assert (is_continuation b1 = true)
        by (unfold bad_second4 in C1; destruct (is_continuation b1);
            [reflexivity|discriminate]).
      rewrite <- scalar4 by (auto; lia).
      apply (dwr_scalar [b0; b1; b2; b3]).
      - apply wf4_iff. repeat split; auto; lia.
      - apply IH1. simpl. lia. }
    apply (dwr_replace [b0; b1; b2]).
    - apply unconvertible_cons.
      intros [|x [|y [|z w]]] r E; [wf_contra| | |].
      + injection E as <- E. wf_contra.
      + injection E as <- <- E. wf_contra.
      + injection E as <- <- <- E. wf_contra.
    - apply (maximal_three _ _ _ _ _ W3). intros x l [r' E].
      injection E as <- E. wf_contra.
    - apply IH1. simpl. lia. }
  apply (dwr_replace [b0]); [| |auto].
  - apply unconvertible_cons. intros. wf_contra.
  - apply maximal_one. intros. wf_contra.
Qed.

Lemma utf8_decode_replace_spec s :
  decodes_with_replacement s (utf8_decode_replace s).
Proof. now apply (utf8_decode_replace_spec_aux (length s)). Qed.

(** *** The substitution decoding is unique *)

Ltac wf_hyp H :=
  first [apply wf1_iff in H | apply wf2_iff in H
        | apply wf3_iff in H | apply wf4_iff in H].

(** The lead byte fixes the length of a well-formed sequence. *)
Lemma wf_same_length a l l' :
  well_formed_sequence (a :: l) = true ->
  well_formed_sequence (a :: l') = true ->
  length l = length l'.
Proof.
  intros H H'.
  destruct l as [|b [|c [|d [|e l]]]]; try discriminate H;
    destruct l' as [|b' [|c' [|d' [|e' l']]]]; try discriminate H';
    try reflexivity;
    wf_hyp H; wf_hyp H'; lia.
Qed.

Lemma wf_prefix_unique w r w' r' :
  well_formed_sequence w = true -> well_formed_sequence w' = true ->
  w ++ r = w' ++ r' -> w = w' /\ r = r'.
Proof.
  intros H H' E.
  destruct w as [|a l]; [discriminate H|].
  destruct w' as [|a' l']; [discriminate H'|].
  injection E as <- E.
  apply app_inj_1 in E as [-> ->]; [auto|].
  eapply wf_same_length; eauto.
Qed.

Lemma maximal_unique m r m' r' :
  maximal_subpart m r -> maximal_subpart m' r' -> m ++ r = m' ++ r' ->
  m = m' /\ r = r'.
Proof.
  intros (Hne & Hi & Hmax) (Hne' & Hi' & Hmax') E.
  assert (L : length m = length m').
  { destruct (Nat.lt_trichotomy (length m) (length m')) as [Hl|[Hl|Hl]];
      [exfalso | assumption | exfalso].
    - destruct Hi' as [Hi'|Hi'].
      + exact (Hmax _ _ E Hl Hi').
      + destruct m; [congruence | simpl in Hl; lia].
    - destruct Hi as [Hi|Hi].
      + exact (Hmax' _ _ (eq_sym E) Hl Hi).
      + destruct m'; [congruence | simpl in Hl; lia]. }
  now apply app_inj_1 in E.
Qed.

Lemma dwr_inv s t :
  decodes_with_replacement s t ->
  (s = [] /\ t = [])
  \/ (exists w r t', s = w ++ r /\ t = scalar_of w :: t'
                     /\ well_formed_sequence w = true
                     /\ decodes_with_replacement r t')
  \/ (exists m r t', s = m ++ r /\ t = REPLACEMENT_CHARACTER :: t'
                     /\ unconvertible s /\ maximal_subpart m r
                     /\ decodes_with_replacement r t').
Proof.
  destruct 1; [left; auto | right; left | right; right]; eauto 10.
Qed.

Lemma decodes_with_replacement_unique s t1 :
  decodes_with_replacement s t1 ->
  forall t2, decodes_with_replacement s t2 -> t1 = t2.
Proof.
  induction 1 as [|w r t Hw Hr IH|m r t Hu Hm Hr IH]; intros t2 H2;
    apply dwr_inv in H2
      as [[E ->]|[(w' & r' & t' & E & -> & Hw' & Hr')
                 |(m' & r' & t' & E & -> & Hu' & Hm' & Hr')]].
  - reflexivity.
  - symmetry in E. apply app_eq_nil in E as [-> _]. discriminate Hw'.
  - symmetry in E. apply app_eq_nil in E as [-> _].
    destruct Hm' as [Hne _]. congruence.
  - apply app_eq_nil in E as [-> _]. discriminate Hw.
  - destruct (wf_prefix_unique _ _ _ _ Hw Hw' E) as [-> ->].
    f_equal. auto.
  - rewrite (Hu' w r eq_refl) in Hw. discriminate.
  - apply app_eq_nil in E as [-> _]. destruct Hm as [Hne _]. congruence.
  - rewrite (Hu w' r' E) in Hw'. discriminate.
  - destruct (maximal_unique _ _ _ _ Hm Hm' E) as [-> ->].
    f_equal. auto.
Qed.

Lemma utf8_encodes_decodes raw t :
  utf8_encodes raw t -> decodes_with_replacement raw t.
Proof. induction 1; constructor; auto. Qed.

(** Well-formed input decodes to the text it encodes. *)
Lemma utf8_decode_replace_valid raw t :
  utf8_encodes raw t -> utf8_decode_replace raw = t.
Proof.
  intros H. eapply decodes_with_replacement_unique.
  - apply utf8_decode_replace_spec.
  - now apply utf8_encodes_decodes.
Qed.

(** *** The four paths of [decode_bytes] *)

Lemma decode_bytes_utf16 bo rest :
  decode_bytes (BOM_UTF16 bo ++ rest) = utf16_decode_strict bo rest.
Proof. destruct bo; reflexivity. Qed.

Lemma decode_bytes_sig rest :
  decode_bytes (BOM_UTF8 ++ rest) = Ok (utf8_decode_replace rest).
Proof. reflexivity. Qed.

Lemma decode_bytes_plain raw :
  startswith [xff; xfe] raw = false ->
  startswith [xfe; xff] raw = false ->
  startswith [xef; xbb; xbf] raw = false ->
  decode_bytes raw = Ok (utf8_decode_replace raw).
Proof. unfold decode_bytes. now intros -> -> ->. Qed.

(** *** UTF-16 *)

Lemma code_unit_lt bo b0 b1 : code_unit bo b0 b1 < 0x10000.
Proof.
  pose proof (b2n_lt b0). pose proof (b2n_lt b1).
  destruct bo; unfold code_unit; lia.
Qed.

Lemma unit_bytes_code_unit bo b0 b1 :
  unit_bytes bo (code_unit bo b0 b1) = [b0; b1].
Proof.
  pose proof (b2n_lt b0). pose proof (b2n_lt b1).
  destruct bo; unfold unit_bytes, code_unit.
  - replace ((b2n b1 * 0x100 + b2n b0) mod 0x100) with (b2n b0) by dlia.
    replace ((b2n b1 * 0x100 + b2n b0) / 0x100) with (b2n b1) by dlia.
    now rewrite !n2b_b2n.
  - replace ((b2n b0 * 0x100 + b2n b1) mod 0x100) with (b2n b1) by dlia.
    replace ((b2n b0 * 0x100 + b2n b1) / 0x100) with (b2n b0) by dlia.
    now rewrite !n2b_b2n.
Qed.

Lemma code_unit_unit_bytes bo u :
  u < 0x10000 ->
  exists b0 b1, unit_bytes bo u = [b0; b1] /\ code_unit bo b0 b1 = u.
Proof.
  intros Hu.
  assert (u mod 0x100 < 256) by dlia. assert (u / 0x100 < 256) by dlia.
  destruct bo; unfold unit_bytes, code_unit;
    do 2 eexists; (split; [reflexivity|]); rewrite !b2n_n2b by assumption;
    dlia.
Qed.

Lemma utf16_decode_bmp bo b0 b1 q :
  is_surrogate (code_unit bo b0 b1) = false ->
  utf16_decode_strict bo (b0 :: b1 :: q)
  = rmap (cons (code_unit bo b0 b1)) (utf16_decode_strict bo q).
Proof. intros H. cbn [utf16_decode_strict]. cbv zeta. now rewrite H. Qed.

Lemma utf16_decode_pair bo b0 b1 b2 b3 q :
  is_high_surrogate (code_unit bo b0 b1) = true ->
  is_low_surrogate (code_unit bo b2 b3) = true ->
  utf16_decode_strict bo (b0 :: b1 :: b2 :: b3 :: q)
  = rmap (cons (join_surrogates (code_unit bo b0 b1) (code_unit bo b2 b3)))
         (utf16_decode_strict bo q).
Proof.
  intros H H'. cbn [utf16_decode_strict]. cbv zeta.
  assert (is_surrogate (code_unit bo b0 b1) = true)
    by (unfold is_surrogate, is_high_surrogate in *; lia).
  now rewrite H0, H, H'.
Qed.

Lemma utf16_encode_cons bo c text :
  utf16_encode bo (c :: text)
  = flat_map (unit_bytes bo) (utf16_units c) ++ utf16_encode bo text.
Proof. reflexivity. Qed.

(** Decoding undoes encoding, in either byte order. *)
Lemma utf16_decode_encode bo text :
  forallb is_scalar_value text = true ->
  utf16_decode_strict bo (utf16_encode bo text) = Ok text.
Proof.
  induction text as [|c text IH]; [reflexivity|].
  cbn [forallb]. intros [Hc Ht]%andb_true_iff.
  rewrite utf16_encode_cons. unfold utf16_units.
  unfold is_scalar_value, is_surrogate in Hc.
  destruct (c <? 0x10000) eqn:E.
  - destruct (code_unit_unit_bytes bo c) as (b0 & b1 & Eb & Ec); [lia|].
    cbn [flat_map]. rewrite app_nil_r, Eb. cbn [app].
    rewrite utf16_decode_bmp by (rewrite Ec; unfold is_surrogate; lia).
    now rewrite IH, Ec.
  - set (hi := 0xD800 + (c - 0x10000) / 0x400).
    set (lo := 0xDC00 + (c - 0x10000) mod 0x400).
    assert (Hhi : 0xD800 <= hi <= 0xDBFF) by (subst hi; dlia).
    assert (Hlo : 0xDC00 <= lo <= 0xDFFF) by (subst lo; dlia).
    destruct (code_unit_unit_bytes bo hi) as (b0 & b1 & Eb & Ec); [lia|].
    destruct (code_unit_unit_bytes bo lo) as (b2 & b3 & Eb' & Ec'); [lia|].
    cbn [flat_map]. rewrite app_nil_r, Eb, Eb'. cbn [app].
    rewrite utf16_decode_pair
      by (rewrite ?Ec, ?Ec'; unfold is_high_surrogate, is_low_surrogate; lia).
    rewrite IH, Ec, Ec' by assumption. cbn. f_equal. f_equal.
    unfold join_surrogates. subst hi lo. dlia.
Qed.

Lemma rmap_ok {A B} (f : A -> B) r b :
  rmap f r = Ok b -> exists a, r = Ok a /\ b = f a.
Proof. destruct r; cbn; [intros [= <-]; eauto | discriminate]. Qed.

(** Whatever the decoder accepts is the encoding of the text it returns,
    and that text holds scalar values only. *)
Lemma utf16_decode_ok_aux bo n :
  forall q text, (length q <= n)%nat ->
    utf16_decode_strict bo q = Ok text ->
    q = utf16_encode bo text /\ forallb is_scalar_value text = true.
Proof.
  induction n as [|n IH]; intros q text Hn H.
  { destruct q; [|simpl in Hn; lia]. injection H as <-. auto. }
  destruct q as [|b0 [|b1 q2]]; [injection H as <-; auto|discriminate H|].
  cbn [utf16_decode_strict] in H. cbv zeta in H.
  pose proof (code_unit_lt bo b0 b1) as L01.
  destruct (is_surrogate (code_unit bo b0 b1)) eqn:S; cbn [negb] in H.
  - destruct (is_high_surrogate (code_unit bo b0 b1)) eqn:Hi;
      cbn [negb] in H; [|discriminate H].
    destruct q2 as [|b2 [|b3 q4]]; try discriminate H.
    pose proof (code_unit_lt bo b2 b3) as L23.
    destruct (is_low_surrogate (code_unit bo b2 b3)) eqn:Lo;
      [|discriminate H].
    apply rmap_ok in H as (t' & H & ->).
    apply IH in H as [-> Ht]; [|simpl in Hn |- *; lia].
    unfold is_high_surrogate, is_low_surrogate in Hi, Lo.
    set (c := join_surrogates (code_unit bo b0 b1) (code_unit bo b2 b3)).
    assert (Hc : 0x10000 <= c <= 0x10FFFF)
      by (subst c; unfold join_surrogates; lia).
    split.
    + rewrite utf16_encode_cons. unfold utf16_units.
      replace (c <? 0x10000) with false by lia.
      replace (0xD800 + (c - 0x10000) / 0x400) with (code_unit bo b0 b1)
        by (subst c; unfold join_surrogates; dlia).
      replace (0xDC00 + (c - 0x10000) mod 0x400) with (code_unit bo b2 b3)
        by (subst c; unfold join_surrogates; dlia).
      cbn [flat_map]. now rewrite !unit_bytes_code_unit.
    + cbn [forallb]. rewrite Ht.
      unfold is_scalar_value, is_surrogate. lia.
  - apply rmap_ok in H as (t' & H & ->).
    apply IH in H as [-> Ht]; [|simpl in Hn |- *; lia].
    split.
    + rewrite utf16_encode_cons. unfold utf16_units.
      replace (code_unit bo b0 b1 <? 0x10000) with true by lia.
      cbn [flat_map]. now rewrite unit_bytes_code_unit.
    + cbn [forallb]. rewrite Ht. unfold is_scalar_value. rewrite S. lia.
Qed.

Lemma utf16_decode_ok bo q text :
  utf16_decode_strict bo q = Ok text ->
  q = utf16_encode bo text /\ forallb is_scalar_value text = true.
Proof. apply (utf16_decode_ok_aux bo (length q)). lia. Qed.

(** *** [str_startswith] and [match_here] *)

Lemma sw_iff a s : str_startswith a s = true <-> exists r, s = a ++ r.
Proof.
  revert s. induction a as [|x a IH]; intros s; cbn [str_startswith].
  - split; [eauto | auto].
  - destruct s as [|c s].
    + split; [discriminate | intros [r E]; discriminate E].
    + rewrite andb_true_iff, N.eqb_eq, IH. split.
      * intros [-> [r ->]]. eauto.
      * intros [r E]. injection E as -> ->. eauto.
Qed.

Lemma sw_length a s :
  str_startswith a s = true -> (length a <= length s)%nat.
Proof. intros [r ->]%sw_iff. rewrite length_app. lia. Qed.

Lemma sw_skipn a s : str_startswith a s = true -> s = a ++ skipn (length a) s.
Proof. intros [r ->]%sw_iff. now rewrite drop_app_length. Qed.

Lemma match_here_some alts s n :
  match_here alts s = Some n ->
  exists a, In a alts /\ str_startswith a s = true /\ n = length a.
Proof.
  unfold match_here. destruct (find _ alts) as [a|] eqn:F; [|discriminate].
  intros [= <-]. apply find_some in F. exists a. tauto.
Qed.

Lemma match_here_none alts s a :
  match_here alts s = None -> In a alts -> str_startswith a s = false.
Proof.
  unfold match_here. destruct (find _ alts) as [b|] eqn:F; [discriminate|].
  intros _ Ha. exact (find_none _ _ F a Ha).
Qed.

Lemma match_here_ext alts s s' :
  (forall a, In a alts -> str_startswith a s = str_startswith a s') ->
  match_here alts s = match_here alts s'.
Proof.
  unfold match_here. intros H. f_equal.
  induction alts as [|a alts IH]; [reflexivity|]. cbn [find].
  rewrite <- (H a) by now left.
  destruct (str_startswith a s); [reflexivity|].
  apply IH. intros. apply H. now right.
Qed.

Lemma nonempty_in alts a :
  nonempty alts = true -> In a alts -> exists x a', a = x :: a'.
Proof.
  unfold nonempty. rewrite forallb_forall. intros H Ha.
  specialize (H a Ha). destruct a; [discriminate | eauto].
Qed.

Lemma match_here_positive alts s n :
  nonempty alts = true -> match_here alts s = Some n -> (0 < n)%nat.
Proof.
  intros Hne (a & Ha & _ & ->)%match_here_some.
  destruct (nonempty_in _ _ Hne Ha) as (x & a' & ->). simpl. lia.
Qed.

Lemma match_here_not_head alts c s :
  not_head alts c = true -> match_here alts (c :: s) = None.
Proof.
  unfold not_head. rewrite forallb_forall. intros H.
  destruct (match_here alts (c :: s)) as [n|] eqn:M; [|reflexivity].
  apply match_here_some in M as (a & Ha & Hs & _).
  specialize (H a Ha). destruct a as [|x a]; [discriminate|].
  cbn [str_startswith] in Hs. lia.
Qed.

(** Strong induction on the length of a string. *)
Lemma str_length_ind (P : str -> Prop) :
  (forall s, (forall t, (length t < length s)%nat -> P t) -> P s) ->
  forall s, P s.
Proof.
  intros H s. remember (length s) as n eqn:E. revert s E.
  induction n as [n IH] using lt_wf_ind. intros s ->.
  apply H. intros t Ht. exact (IH _ Ht t eq_refl).
Qed.

Lemma in_skipn {A} n (l : list A) x : In x (skipn n l) -> In x l.
Proof.
  intros H. rewrite <- (firstn_skipn n l). apply in_or_app. now right.
Qed.


(** *** Unfolding [re_sub] *)

Section ReSub.

Variables (alts : alternation) (repl : str).

Lemma sub_from_skip k s :
  sub_from alts repl k s = re_sub alts repl (skipn k s).
Proof.
  revert k. induction s as [|c s IH]; intros [|k]; try reflexivity.
  cbn [sub_from skipn]. apply IH.
Qed.

Lemma re_sub_nil : re_sub alts repl [] = [].
Proof. reflexivity. Qed.

Lemma re_sub_match s n :
  match_here alts s = Some n -> (0 < n)%nat ->
  re_sub alts repl s = repl ++ re_sub alts repl (skipn n s).
Proof.
  intros M Hn. destruct s as [|c s].
  - apply match_here_some in M as (a & _ & Hs & ->).
    apply sw_length in Hs. simpl in Hs. lia.
  - unfold re_sub at 1. cbn [sub_from]. rewrite M, sub_from_skip.
    destruct n; [lia|]. cbn [skipn Nat.sub]. now rewrite ?Nat.sub_0_r.
Qed.

Lemma re_sub_nomatch c s :
  match_here alts (c :: s) = None ->
  re_sub alts repl (c :: s) = c :: re_sub alts repl s.
Proof. intros M. unfold re_sub. cbn [sub_from]. now rewrite M. Qed.

(** *** Characters of the result *)

Lemma re_sub_chars s c :
  In c (re_sub alts repl s) -> In c s \/ In c repl.
Proof.
  induction s as [s IH] using str_length_ind. destruct s as [|x s].
  { rewrite re_sub_nil. tauto. }
  destruct (match_here alts (x :: s)) as [n|] eqn:M.
  - destruct n as [|n].
    + unfold re_sub. cbn [sub_from]. rewrite M, sub_from_skip.
      cbn [Nat.sub]. change (skipn 0 s) with s.
      rewrite in_app_iff. intros [H|H]; [tauto|].
      apply IH in H; [|cbn [length]; lia]. destruct H; [left; now right | tauto].
    + rewrite (re_sub_match _ _ M) by lia. cbn [skipn].
      rewrite in_app_iff. intros [H|H]; [tauto|].
      apply IH in H.
      * destruct H as [H|H]; [|tauto]. left. right.
        eapply in_skipn. exact H.
      * rewrite length_skipn; cbn [length]; lia.
  - rewrite (re_sub_nomatch _ _ M). cbn [In]. intros [H|H]; [tauto|].
    apply IH in H; [tauto | cbn [length]; lia].
Qed.

(** *** A text without occurrence is left alone *)

Lemma occurs_false_cons c s :
  occurs alts (c :: s) = false ->
  match_here alts (c :: s) = None /\ occurs alts s = false.
Proof.
  cbn [occurs]. destruct (match_here alts (c :: s)); [discriminate | auto].
Qed.

Lemma re_sub_clean s :
  occurs alts s = false -> re_sub alts repl s = s.
Proof.
  induction s as [|c s IH]; [reflexivity|].
  intros [M H]%occurs_false_cons.
  rewrite (re_sub_nomatch _ _ M). f_equal. auto.
Qed.

End ReSub.

Lemma apply_rules_clean rules s :
  clean rules s = true -> apply_rules rules s = s.
Proof.
  induction rules as [|r rules IH]; [reflexivity|].
  unfold clean. cbn [forallb]. intros [Hr H]%andb_true_iff.
  unfold apply_rules. cbn [fold_left].
  rewrite re_sub_clean by (destruct (occurs (fst r) s); [discriminate|auto]).
  now apply IH.
Qed.

(** *** Replacements create no occurrence *)

Lemma mem_true c s : mem c s = true <-> In c s.
Proof.
  unfold mem. rewrite existsb_exists. split.
  - intros (x & Hx & ->%N.eqb_eq). exact Hx.
  - intros H. exists c. split; [exact H | apply N.eqb_refl].
Qed.

Lemma avoids_in chars alts a x :
  avoids chars alts = true -> In a alts -> In x a -> ~ In x chars.
Proof.
  unfold avoids. rewrite forallb_forall. intros H Ha Hx Hc.
  specialize (H a Ha). rewrite forallb_forall in H. specialize (H x Hx).
  apply mem_true in Hc. rewrite Hc in H. discriminate.
Qed.

Lemma avoids_not_head chars alts c :
  nonempty alts = true -> avoids chars alts = true -> In c chars ->
  not_head alts c = true.
Proof.
  intros Hne Hav Hc. unfold not_head. apply forallb_forall. intros a Ha.
  destruct (nonempty_in _ _ Hne Ha) as (x & a' & ->).
  apply negb_true_iff, N.eqb_neq. intros ->.
  exact (avoids_in _ _ _ _ Hav Ha (or_introl eq_refl) Hc).
Qed.

(** A string free of the replacement's characters that starts the
    result already starts the text. *)
Lemma occurs_not_head alts pre s :
  forallb (not_head alts) pre = true ->
  occurs alts (pre ++ s) = occurs alts s.
Proof.
  induction pre as [|c pre IH]; [reflexivity|].
  cbn [forallb]. intros [Hc Hp]%andb_true_iff. cbn [app occurs].
  rewrite (match_here_not_head _ _ _ Hc). auto.
Qed.

Lemma occurs_skipn alts k s :
  occurs alts (skipn k s) = true -> occurs alts s = true.
Proof.
  revert k. induction s as [|c s IH]; intros [|k]; cbn [skipn]; auto.
  intros H%IH. cbn [occurs]. now destruct (match_here alts (c :: s)).
Qed.


Lemma match_here_some_intro alts s a :
  In a alts -> str_startswith a s = true -> match_here alts s <> None.
Proof.
  intros Ha Hs M. rewrite (match_here_none _ _ _ M Ha) in Hs. discriminate.
Qed.

Section NoOccurrence.

Variables (alts : alternation) (repl : str).
Hypothesis alts_nonempty : nonempty alts = true.
Hypothesis repl_nonempty : (0 < length repl)%nat.
Hypothesis alts_avoid_repl : avoids repl alts = true.

(** An alternative that starts the result of a substitution already
    starts the text: it holds no character of the replacement. *)
Lemma sw_re_sub other a t :
  In a alts ->
  str_startswith a (re_sub other repl t) = true ->
  str_startswith a t = true.
Proof.
  intros Ha.
  assert (Hx : forall x, In x a -> ~ In x repl)
    by (intros x Hx; exact (avoids_in _ _ _ _ alts_avoid_repl Ha Hx)).
  clear Ha. revert a Hx. induction t as [|c t IH]; intros a Ha.
  { now rewrite re_sub_nil. }
  destruct a as [|x a]; [reflexivity|].
  destruct (match_here other (c :: t)) as [n|] eqn:M.
  - unfold re_sub. cbn [sub_from]. rewrite M.
    destruct repl as [|r repl'] eqn:E; [cbn [length] in repl_nonempty; lia|].
    cbn [app str_startswith]. intros [->%N.eqb_eq _]%andb_true_iff.
    exfalso. apply (Ha r); now left.
  - rewrite (re_sub_nomatch _ _ _ _ M). cbn [str_startswith].
    intros [-> H]%andb_true_iff. apply andb_true_iff. split; [reflexivity|].
    apply IH; [|exact H]. intros y Hy. apply Ha. now right.
Qed.

Lemma occurs_repl s : occurs alts (repl ++ s) = occurs alts s.
Proof.
  apply occurs_not_head, forallb_forall.
  intros c Hc. eapply avoids_not_head; eauto.
Qed.

(** The pattern matches nowhere a character was copied. *)
Lemma match_here_copied other c s :
  match_here other (c :: s) = None ->
  match_here alts (c :: s) = None ->
  match_here alts (c :: re_sub other repl s) = None.
Proof.
  intros M M'.
  destruct (match_here alts (c :: re_sub other repl s)) as [n|] eqn:M'';
    [exfalso | reflexivity].
  apply match_here_some in M'' as (a & Ha & Hs & _).
  rewrite <- (re_sub_nomatch _ _ _ _ M) in Hs.
  apply (sw_re_sub _ _ _ Ha) in Hs.
  exact (match_here_some_intro _ _ _ Ha Hs M').
Qed.

(** After [re.sub], the pattern no longer occurs. *)
Lemma re_sub_no_occurrence (s : str) :
  occurs alts (re_sub alts repl s) = false.
Proof.
  induction s as [s IH] using str_length_ind.
  destruct s as [|c s]; [reflexivity|].
  destruct (match_here alts (c :: s)) as [n|] eqn:M.
  - pose proof (match_here_positive _ _ _ alts_nonempty M) as Hn.
    rewrite (re_sub_match _ _ _ _ M Hn), occurs_repl.
    apply IH. rewrite length_skipn. cbn [length]. lia.
  - rewrite (re_sub_nomatch _ _ _ _ M). cbn [occurs].
    rewrite IH by (cbn [length]; lia).
    now rewrite match_here_copied.
Qed.

(** [re.sub] with another pattern creates no occurrence of this one. *)
Lemma re_sub_no_new_occurrence other (s : str) :
  occurs alts s = false ->
  occurs alts (re_sub other repl s) = false.
Proof.
  induction s as [s IH] using str_length_ind.
  destruct s as [|c s]; [reflexivity|]. intros Hs.
  destruct (match_here other (c :: s)) as [n|] eqn:M.
  - destruct n as [|n].
    + unfold re_sub. cbn [sub_from]. rewrite M, sub_from_skip.
      cbn [Nat.sub]. change (skipn 0 s) with s. rewrite occurs_repl.
      apply occurs_false_cons in Hs as [_ Hs].
      apply IH; [cbn [length]; lia | exact Hs].
    + rewrite (re_sub_match _ _ _ _ M) by lia. rewrite occurs_repl.
      apply IH; [rewrite length_skipn; cbn [length]; lia|].
      destruct (occurs alts (skipn (S n) (c :: s))) eqn:O; [|reflexivity].
      apply occurs_skipn in O. congruence.
  - rewrite (re_sub_nomatch _ _ _ _ M).
    apply occurs_false_cons in Hs as [M' Hs]. cbn [occurs].
    rewrite IH by (cbn [length]; lia || assumption).
    now rewrite match_here_copied.
Qed.

End NoOccurrence.

Lemma rules_ok_in rules r :
  rules_ok rules = true -> In r rules ->
  nonempty (fst r) = true /\ (0 < length (snd r))%nat
  /\ forall r', In r' rules -> avoids (snd r') (fst r) = true.
Proof.
  unfold rules_ok. rewrite forallb_forall. intros H Hr.
  specialize (H r Hr). cbv beta in H.
  apply andb_true_iff in H as [[H1 H2]%andb_true_iff H3].
  rewrite forallb_forall in H3. destruct r as [alts repl].
  cbn [fst snd] in *. repeat split; auto.
  destruct repl; [discriminate H2 | cbn [length]; lia].
Qed.

Lemma clean_app rules rules' s :
  clean (rules ++ rules') s = clean rules s && clean rules' s.
Proof. unfold clean. apply forallb_app. Qed.

(** Applying the rules that remain keeps the text clean of the rules
    already applied and cleans it of the others. *)
Lemma apply_rules_cleans all done todo s :
  rules_ok all = true -> incl done all -> incl todo all ->
  clean done s = true ->
  clean (done ++ todo) (apply_rules todo s) = true.
Proof.
  intros Hok. revert done s.
  induction todo as [|r todo IH]; intros done s Hd Ht Hs.
  { now rewrite app_nil_r. }
  change (apply_rules (r :: todo) s)
    with (apply_rules todo (re_sub (fst r) (snd r) s)).
  replace (done ++ r :: todo) with ((done ++ [r]) ++ todo)
    by now rewrite <- app_assoc.
  assert (Hr : In r all) by (apply Ht; now left).
  destruct (rules_ok_in _ _ Hok Hr) as (Hne & Hlen & Hav).
  apply IH.
  - apply incl_app; [exact Hd|]. intros ? [<-|[]]. exact Hr.
  - intros x Hx. apply Ht. now right.
  - rewrite clean_app. apply andb_true_iff. split.
    + unfold clean in *. rewrite forallb_forall in *. intros d Hdn.
      specialize (Hs d Hdn). apply negb_true_iff in Hs.
      apply negb_true_iff.
      destruct (rules_ok_in _ _ Hok (Hd d Hdn)) as (Hne' & _ & Hav').
      apply re_sub_no_new_occurrence; auto.
    + unfold clean. cbn [forallb]. rewrite andb_true_r.
      apply negb_true_iff. apply re_sub_no_occurrence; auto.
Qed.

Lemma apply_rules_idempotent rules s :
  rules_ok rules = true ->
  apply_rules rules (apply_rules rules s) = apply_rules rules s.
Proof.
  intros Hok. apply apply_rules_clean.
  apply (apply_rules_cleans rules [] rules s Hok);
    [intros ? [] | apply incl_refl | reflexivity].
Qed.

Lemma RULES_eq :
  RULES =
  [ ([[0xD4; 0xC7; 0xF4]; [0xD4; 0xC7; 0xF6];
      [0xE2; 0x20AC; 0x201C]; [0xE2; 0x20AC; 0x201D]], [0x2D]);
    ([[0xD4; 0xC7; 0xAA]; [0xE2; 0x20AC; 0xA6]], [0x2E; 0x2E; 0x2E]);
    ([quote3], [0x2D]);
    ([[0x627; 0x22; 0x627; 0x62E; 0x61]], [0x2D]);
    ([[0x627; 0x22; 0x627; 0x62E]], [0x2D]) ].
Proof. reflexivity. Qed.

Lemma REPLACEMENTS_compile : compile_rules REPLACEMENTS = Some RULES.
Proof. reflexivity. Qed.

(** The pattern of line 20 matches the literal [quote3]. *)
Example pattern_quote3_compiles : re_compile pattern_quote3 = Some [quote3].
Proof. reflexivity. Qed.

Lemma RULES_ok : rules_ok RULES = true.
Proof. reflexivity. Qed.

(** C2. The Repairer is idempotent: repairing a repaired text changes
    nothing, for every text. *)
Theorem repair_idempotent (s : str) : repair (repair s) = repair s.
Proof. apply apply_rules_idempotent. exact RULES_ok. Qed.

Lemma apply_rules_chars (P : codepoint -> Prop) rules text c :
  (forall r x, In r rules -> In x (snd r) -> P x) ->
  In c (apply_rules rules text) -> In c text \/ P c.
Proof.
  revert text. induction rules as [|r rules IH]; intros text H; [now left|].
  change (apply_rules (r :: rules) text)
    with (apply_rules rules (re_sub (fst r) (snd r) text)).
  intros Hc. apply IH in Hc; [|intros r' x Hr'; apply H; now right].
  destruct Hc as [Hc|Hc]; [|now right].
  apply re_sub_chars in Hc as [Hc|Hc]; [now left|].
  right. apply (H r); [now left | exact Hc].
Qed.

Lemma repair_in text c :
  In c (repair text) -> In c text \/ c = 0x2D \/ c = 0x2E.
Proof.
  apply (apply_rules_chars (fun x => x = 0x2D \/ x = 0x2E)).
  rewrite RULES_eq. intros r x Hr Hx. cbn [In] in Hr.
  repeat (destruct Hr as [<-|Hr]; [cbn in Hx; intuition congruence|]).
  destruct Hr.
Qed.

Lemma repair_clean text : clean RULES text = true -> repair text = text.
Proof. apply apply_rules_clean. Qed.

(** C10. Every character of the repaired text is a character of the input
    or one of the replacement characters [-] and [.]; and a text in which
    no pattern of the five rules occurs is returned unchanged. *)
Theorem repair_characters (text : str) :
  (forall c, In c (repair text) -> In c text \/ c = 0x2D \/ c = 0x2E)
  /\ (clean RULES text = true -> repair text = text).
Proof. split; [apply repair_in | apply repair_clean]. Qed.

(** *** [re.sub] across a boundary no match can straddle *)

(** Characters that start no alternative are copied. *)
Lemma re_sub_not_head alts repl w s :
  forallb (not_head alts) w = true ->
  re_sub alts repl (w ++ s) = w ++ re_sub alts repl s.
Proof.
  induction w as [|c w IH]; [reflexivity|].
  cbn [forallb]. intros [Hc Hw]%andb_true_iff. cbn [app].
  rewrite re_sub_nomatch by now apply match_here_not_head.
  f_equal. auto.
Qed.

(** An alternative without the character [y0] matches [x ++ y0 :: y]
    only inside [x]. *)
Lemma sw_app_avoid a x y0 y :
  (0 < length a)%nat -> ~ In y0 a ->
  str_startswith a (x ++ y0 :: y) = str_startswith a x.
Proof.
  revert x. induction a as [|c a IH]; intros x Hl Hn;
    [cbn [length] in Hl; lia|].
  destruct x as [|d x]; cbn [app str_startswith].
  - apply andb_false_iff. left. apply N.eqb_neq. intros ->.
    apply Hn. now left.
  - destruct a as [|c' a].
    + now destruct (c =? d).
    + f_equal. apply IH; [cbn [length]; lia|].
      intros H. apply Hn. now right.
Qed.

Lemma match_here_app_avoid alts x y0 y :
  nonempty alts = true -> avoids [y0] alts = true ->
  match_here alts (x ++ y0 :: y) = match_here alts x.
Proof.
  intros Hne Hav. apply match_here_ext. intros a Ha.
  destruct (nonempty_in _ _ Hne Ha) as (c & a' & ->).
  apply sw_app_avoid; [cbn [length]; lia|].
  intros H. exact (avoids_in _ _ _ _ Hav Ha H (or_introl eq_refl)).
Qed.

Lemma re_sub_app_avoid alts repl (x : str) y0 y :
  nonempty alts = true -> avoids [y0] alts = true ->
  re_sub alts repl (x ++ y0 :: y)
  = re_sub alts repl x ++ re_sub alts repl (y0 :: y).
Proof.
  intros Hne Hav. induction x as [x IH] using str_length_ind.
  destruct x as [|c x]; [reflexivity|].
  pose proof (match_here_app_avoid alts (c :: x) y0 y Hne Hav) as E.
  destruct (match_here alts (c :: x)) as [n|] eqn:M.
  - pose proof (match_here_positive _ _ _ Hne M) as Hn.
    rewrite (re_sub_match _ _ _ _ E Hn), (re_sub_match _ _ _ _ M Hn).
    apply match_here_some in M as (a & _ & Hs%sw_length & ->).
    rewrite skipn_app.
    replace (length a - length (c :: x))%nat with 0%nat by lia.
    change (skipn 0 (y0 :: y)) with (y0 :: y).
    rewrite IH, app_assoc; [reflexivity|].
    rewrite length_skipn. cbn [length] in *. lia.
  - cbn [app] in *. rewrite (re_sub_nomatch _ _ _ _ E),
      (re_sub_nomatch _ _ _ _ M), IH by (cbn [length]; lia).
    reflexivity.
Qed.

(** A word [w] whose characters start no alternative, and whose first
    character is in none, is copied, and the text on either side of it is
    rewritten on its own. *)
Lemma re_sub_around alts repl (x : str) w y :
  nonempty alts = true ->
  match w with
  | w0 :: _ => avoids [w0] alts
  | [] => false
  end = true ->
  forallb (not_head alts) w = true ->
  re_sub alts repl (x ++ w ++ y)
  = re_sub alts repl x ++ w ++ re_sub alts repl y.
Proof.
  intros Hne Hav Hw. destruct w as [|w0 w]; [discriminate|].
  change ((w0 :: w) ++ y) with (w0 :: (w ++ y)).
  rewrite re_sub_app_avoid by assumption.
  change (w0 :: (w ++ y)) with ((w0 :: w) ++ y).
  now rewrite re_sub_not_head.
Qed.

(** *** A pattern that cannot overlap itself *)

Lemma str_eqb_eq a b : str_eqb a b = true <-> a = b.
Proof.
  revert b. induction a as [|x a IH]; intros [|y b]; cbn [str_eqb].
  - tauto.
  - split; discriminate.
  - split; discriminate.
  - rewrite andb_true_iff, N.eqb_eq, IH.
    split; [intros [-> ->]; reflexivity | intros [= -> ->]; auto].
Qed.

Lemma unbordered_spec p k :
  unbordered p = true -> (0 < k < length p)%nat ->
  firstn k p <> skipn (length p - k) p.
Proof.
  unfold unbordered. rewrite forallb_forall. intros H Hk E.
  specialize (H k). rewrite in_seq in H.
  apply str_eqb_eq in E. rewrite E in H. specialize (H ltac:(lia)).
  discriminate.
Qed.

(** If [p] starts [x ++ p ++ y] and cannot overlap itself, it starts
    [x] or [x] is empty. *)
Lemma sw_unbordered p x y :
  unbordered p = true -> (0 < length x)%nat ->
  str_startswith p (x ++ p ++ y) = true ->
  str_startswith p x = true.
Proof.
  intros Hu Hx [r E]%sw_iff.
  apply app_eq_app in E as [l [[-> _]|[Ep E]]].
  { apply sw_iff. eauto. }
  destruct l as [|c l].
  { rewrite app_nil_r in Ep. subst. apply sw_iff. exists [].
    now rewrite app_nil_r. }
  exfalso.
  assert (Lp : length p = (length x + length (c :: l))%nat)
    by (rewrite Ep; apply length_app).
  apply app_eq_app in E as [l2 [[Ep2 _]|[El _]]].
  - apply (unbordered_spec p (length (c :: l)) Hu); [cbn [length] in *; lia|].
    replace (length p - length (c :: l))%nat with (length x) by lia.
    transitivity (c :: l).
    + rewrite Ep2. apply take_app_length.
    + rewrite Ep. symmetry. apply drop_app_length.
  - apply (f_equal (@length codepoint)) in El.
    rewrite length_app in El. lia.
Qed.

Lemma match_here_single p s :
  match_here [p] s = if str_startswith p s then Some (length p) else None.
Proof. unfold match_here. cbn [find]. now destruct (str_startswith p s). Qed.

Lemma sw_app_l p x y :
  str_startswith p x = true -> str_startswith p (x ++ y) = true.
Proof.
  intros [r ->]%sw_iff. apply sw_iff. exists (r ++ y).
  now rewrite app_assoc.
Qed.

(** Every occurrence of a pattern that cannot overlap itself is
    replaced, whatever surrounds it. *)
Lemma re_sub_unbordered p repl (x : str) y :
  (0 < length p)%nat -> unbordered p = true ->
  re_sub [p] repl (x ++ p ++ y)
  = re_sub [p] repl x ++ repl ++ re_sub [p] repl y.
Proof.
  intros Hp Hu. induction x as [x IH] using str_length_ind.
  destruct x as [|c x].
  { cbn [app]. rewrite re_sub_nil. cbn [app].
    rewrite (re_sub_match [p] repl (p ++ y) (length p)); [|
      rewrite match_here_single;
      now replace (str_startswith p (p ++ y)) with true
        by (symmetry; apply sw_iff; eauto) | exact Hp].
    now rewrite drop_app_length. }
  destruct (str_startswith p ((c :: x) ++ p ++ y)) eqn:S.
  - assert (S' : str_startswith p (c :: x) = true)
      by (eapply sw_unbordered; eauto; cbn [length]; lia).
    rewrite (re_sub_match [p] repl _ (length p));
      [|rewrite match_here_single; now rewrite S | exact Hp].
    rewrite (re_sub_match [p] repl (c :: x) (length p));
      [|rewrite match_here_single; now rewrite S' | exact Hp].
    rewrite skipn_app.
    replace (length p - length (c :: x))%nat with 0%nat
      by (apply sw_length in S'; lia).
    change (skipn 0 (p ++ y)) with (p ++ y).
    rewrite IH, app_assoc; [reflexivity|].
    rewrite length_skipn. cbn [length]. lia.
  - assert (S' : str_startswith p (c :: x) = false).
    { destruct (str_startswith p (c :: x)) eqn:S'; [|reflexivity].
      rewrite (sw_app_l _ _ _ S') in S. discriminate. }
    cbn [app] in *.
    rewrite !re_sub_nomatch by (rewrite match_here_single;
                                  now rewrite ?S, ?S').
    rewrite IH by (cbn [length]; lia). reflexivity.
Qed.

(** *** The longest quote-adjacent artifact *)

Lemma repair_eq text :
  repair text
  = re_sub [[0x627; 0x22; 0x627; 0x62E]] [0x2D]
      (re_sub [[0x627; 0x22; 0x627; 0x62E; 0x61]] [0x2D]
         (re_sub [quote3] [0x2D]
            (re_sub [[0xD4; 0xC7; 0xAA]; [0xE2; 0x20AC; 0xA6]]
                    [0x2E; 0x2E; 0x2E]
               (re_sub [[0xD4; 0xC7; 0xF4]; [0xD4; 0xC7; 0xF6];
                        [0xE2; 0x20AC; 0x201C]; [0xE2; 0x20AC; 0x201D]]
                       [0x2D] text)))).
Proof. unfold repair. now rewrite RULES_eq. Qed.

(** C3. The rule for the longest corrupted sequence comes first among the
    three quote-adjacent rules: wherever that sequence occurs, the whole
    of it becomes one [-], and the text before and the text after are
    repaired as they would be on their own, so nothing of the sequence is
    left behind. *)
Theorem repair_longest_artifact (before after : str) :
  repair (before ++ quote3 ++ after)
  = repair before ++ lit "-" ++ repair after.
Proof.
  rewrite !repair_eq.
  (* the dash and ellipsis rules do not touch the artifact *)
  do 2 rewrite (re_sub_around _ _ _ quote3) by reflexivity.
  (* the rule of line 20 replaces it *)
  rewrite re_sub_unbordered by (reflexivity || (cbn [quote3 length]; lia)).
  (* the two shorter rules see a [-] where it was *)
  do 2 rewrite (re_sub_around _ _ _ [0x2D]) by reflexivity.
  reflexivity.
Qed.

(** *** Scalar values *)

Lemma is_continuation_range b :
  is_continuation b = true <-> 0x80 <= b2n b < 0xC0.
Proof. unfold is_continuation. lia. Qed.

Lemma bad_second3_false c0 b :
  bad_second3 c0 b = false
  <-> 0x80 <= b2n b < 0xC0 /\ (c0 = 0xE0 -> 0xA0 <= b2n b)
      /\ (c0 = 0xED -> b2n b < 0xA0).
Proof.
  unfold bad_second3, is_continuation. destruct (b2n b <? 0xA0) eqn:E; lia.
Qed.

Lemma bad_second4_false c0 b :
  bad_second4 c0 b = false
  <-> 0x80 <= b2n b < 0xC0 /\ (c0 = 0xF0 -> 0x90 <= b2n b)
      /\ (c0 = 0xF4 -> b2n b < 0x90).
Proof.
  unfold bad_second4, is_continuation. destruct (b2n b <? 0x90) eqn:E; lia.
Qed.

Lemma is_scalar_value_iff c :
  is_scalar_value c = true <-> c <= 0x10FFFF /\ (c < 0xD800 \/ 0xDFFF < c).
Proof. unfold is_scalar_value, is_surrogate. lia. Qed.

Lemma scalar_of_wf w :
  well_formed_sequence w = true -> is_scalar_value (scalar_of w) = true.
Proof.
  intros H. apply is_scalar_value_iff.
  destruct w as [|a [|b [|c [|d [|e w]]]]]; try discriminate H;
    wf_hyp H; unfold scalar_of;
    rewrite ?is_continuation_range, ?bad_second3_false, ?bad_second4_false
      in H; dlia.
Qed.

Lemma dwr_scalar_values s t :
  decodes_with_replacement s t -> forallb is_scalar_value t = true.
Proof.
  induction 1; cbn [forallb]; [reflexivity| |assumption].
  now rewrite scalar_of_wf.
Qed.

Lemma utf8_decode_replace_scalar s :
  forallb is_scalar_value (utf8_decode_replace s) = true.
Proof. eapply dwr_scalar_values, utf8_decode_replace_spec. Qed.

Lemma decode_bytes_scalar raw text :
  decode_bytes raw = Ok text -> forallb is_scalar_value text = true.
Proof.
  unfold decode_bytes, decode_utf_8_sig_replace, decode_utf_8_replace,
    decode_utf_16.
  destruct (_ || _).
  - destruct raw as [|b0 [|b1 rest]]; try discriminate;
      repeat match goal with
             | |- context [if ?c then _ else _] => destruct c
             end; intros H; now apply utf16_decode_ok in H.
  - destruct (startswith _ raw); [destruct (startswith BOM_UTF8 raw)|];
      intros [= <-]; apply utf8_decode_replace_scalar.
Qed.

Lemma repair_scalar text :
  forallb is_scalar_value text = true ->
  forallb is_scalar_value (repair text) = true.
Proof.
  rewrite !forallb_forall. intros H c Hc.
  apply repair_in in Hc as [Hc|[->| ->]]; auto.
Qed.

Lemma translate_newlines_chars o text c :
  In c (translate_newlines o text) -> In c text \/ c = 0x0D \/ c = 0x0A.
Proof.
  unfold translate_newlines. rewrite in_flat_map. intros (x & Hx & Hc).
  destruct (x =? 0x0A) eqn:E.
  - destruct o; cbn in Hc; intuition congruence.
  - destruct Hc as [<-|[]]. now left.
Qed.

Lemma translate_newlines_scalar o text :
  forallb is_scalar_value text = true ->
  forallb is_scalar_value (translate_newlines o text) = true.
Proof.
  rewrite !forallb_forall. intros H c Hc.
  apply translate_newlines_chars in Hc as [Hc|[->| ->]]; auto.
Qed.

(** *** The encoder *)

Lemma utf8_encode_char_ok c :
  is_scalar_value c = true ->
  exists w, utf8_encode_char c = Ok w
            /\ well_formed_sequence w = true /\ scalar_of w = c.
Proof.
  unfold is_scalar_value, is_surrogate, utf8_encode_char. intros H.
  destruct (c <? 0x80) eqn:E1; [|destruct (c <? 0x800) eqn:E2;
    [|destruct (c <? 0x10000) eqn:E3]].
  - eexists. split; [reflexivity|].
    unfold well_formed_sequence, scalar_of, in_range.
    rewrite !b2n_n2b by lia. lia.
  - eexists. split; [reflexivity|].
    unfold well_formed_sequence, scalar_of, in_range.
    rewrite !b2n_n2b by dlia. split; dlia.
  - replace (is_surrogate c) with false by (unfold is_surrogate; lia).
    eexists. split; [reflexivity|].
    unfold well_formed_sequence, scalar_of, in_range.
    rewrite !b2n_n2b by dlia. split; dlia.
  - eexists. split; [reflexivity|].
    unfold well_formed_sequence, scalar_of, in_range.
    rewrite !b2n_n2b by dlia. split; dlia.
Qed.

Lemma encode_utf_8_ok text :
  forallb is_scalar_value text = true ->
  exists out, encode_utf_8 text = Ok out /\ utf8_encodes out text.
Proof.
  induction text as [|c text IH]; cbn [forallb encode_utf_8].
  { exists []. split; [reflexivity | constructor]. }
  intros [Hc Ht]%andb_true_iff.
  destruct (utf8_encode_char_ok c Hc) as (w & -> & Hw & <-).
  destruct (IH Ht) as (out & -> & Ho).
  exists (w ++ out). split; [reflexivity | now constructor].
Qed.

(** *** Byte-order marks *)

Lemma byte_eqb_eq a b : byte_eqb a b = true <-> a = b.
Proof.
  unfold byte_eqb. split; [apply Byte.byte_dec_bl | apply Byte.byte_dec_lb].
Qed.

Lemma startswith_iff p s : startswith p s = true <-> exists r, s = p ++ r.
Proof.
  revert s. induction p as [|x p IH]; intros s; cbn [startswith].
  - split; [eauto | auto].
  - destruct s as [|c s].
    + split; [discriminate | intros [r E]; discriminate E].
    + rewrite andb_true_iff, byte_eqb_eq, IH. split.
      * intros [-> [r ->]]. eauto.
      * intros [r E]. injection E as -> ->. eauto.
Qed.

Lemma startswith_app p q s :
  startswith (p ++ q) s = true -> startswith p s = true.
Proof.
  rewrite !startswith_iff. intros [r ->]. exists (q ++ r).
  now rewrite app_assoc.
Qed.

Lemma startswith_app_same p q s :
  startswith (p ++ q) (p ++ s) = startswith q s.
Proof.
  induction p as [|x p IH]; [reflexivity|]. cbn [app startswith].
  rewrite IH. replace (byte_eqb x x) with true; [reflexivity|].
  symmetry. now apply byte_eqb_eq.
Qed.

(** The decoded text starts with U+FEFF exactly when the bytes start with
    its UTF-8 form. *)
Lemma utf8_decode_head_bom raw :
  (exists t, utf8_decode_replace raw = 0xFEFF :: t)
  <-> startswith BOM_UTF8 raw = true.
Proof.
  split.
  - intros [t E]. pose proof (utf8_decode_replace_spec raw) as D.
    rewrite E in D.
    apply dwr_inv in D
      as [[_ [=]]|[(w & r & t' & -> & [= E' <-] & Hw & _)
                  |(_ & _ & _ & _ & [=] & _)]].
    apply startswith_iff. exists r. f_equal.
    destruct w as [|a [|b [|c [|d [|e w]]]]]; try discriminate Hw;
      wf_hyp Hw; unfold scalar_of in E';
      rewrite ?is_continuation_range, ?bad_second3_false,
        ?bad_second4_false in Hw; try (exfalso; dlia).
    unfold BOM_UTF8.
    assert (b2n a = 0xEF /\ b2n b = 0xBB /\ b2n c = 0xBF) as (Ha & Hb & Hc)
        by dlia.
    f_equal; [|f_equal; [|f_equal]]; apply b2n_inj; assumption.
  - intros [r ->]%startswith_iff. exists (utf8_decode_replace r).
    reflexivity.
Qed.

Lemma utf16_decode_head_bom bo rest text :
  utf16_decode_strict bo rest = Ok text ->
  (exists t, text = 0xFEFF :: t) <-> startswith (BOM_UTF16 bo) rest = true.
Proof.
  intros H. split.
  - intros [t ->]. apply utf16_decode_ok in H as [-> _].
    apply startswith_iff. exists (utf16_encode bo t). now destruct bo.
  - intros [r ->]%startswith_iff.
    assert (E : utf16_decode_strict bo (BOM_UTF16 bo ++ r)
                = rmap (cons 0xFEFF) (utf16_decode_strict bo r))
      by now destruct bo.
    rewrite E in H. apply rmap_ok in H as (t & _ & ->). eauto.
Qed.

(** The first character survives the rules, and none of them puts a
    U+FEFF first. *)
Lemma re_sub_head_bom alts repl text :
  not_head alts 0xFEFF = true -> mem 0xFEFF repl = false ->
  (0 < length repl)%nat ->
  (exists t, re_sub alts repl text = 0xFEFF :: t)
  <-> (exists t, text = 0xFEFF :: t).
Proof.
  intros Hh Hm Hl. split.
  - intros [t E]. destruct text as [|c text]; [discriminate E|].
    destruct (match_here alts (c :: text)) as [n|] eqn:M.
    + unfold re_sub in E. cbn [sub_from] in E. rewrite M in E.
      destruct repl as [|r repl]; [cbn [length] in Hl; lia|].
      injection E as -> _. cbn [mem existsb] in Hm.
      rewrite N.eqb_refl in Hm. discriminate.
    + rewrite (re_sub_nomatch _ _ _ _ M) in E. injection E as -> _. eauto.
  - intros [t ->].
    rewrite re_sub_nomatch by now apply match_here_not_head. eauto.
Qed.

Lemma repair_head_bom text :
  (exists t, repair text = 0xFEFF :: t) <-> (exists t, text = 0xFEFF :: t).
Proof.
  rewrite repair_eq. now rewrite !re_sub_head_bom by (reflexivity || cbn; lia).
Qed.

Lemma translate_newlines_head_bom o text :
  (exists t, translate_newlines o text = 0xFEFF :: t)
  <-> (exists t, text = 0xFEFF :: t).
Proof.
  destruct text as [|c text].
  { split; intros [t E]; discriminate E. }
  unfold translate_newlines. cbn [flat_map].
  destruct (c =? 0x0A) eqn:E.
  - apply N.eqb_eq in E as ->.
    split; intros [t E]; [destruct o|]; discriminate E.
  - cbn [app]. split; intros [t [= -> _]]; eauto.
Qed.

Lemma encode_head_bom text out :
  forallb is_scalar_value text = true ->
  encode_utf_8 text = Ok out ->
  startswith BOM_UTF8 out = true <-> (exists t, text = 0xFEFF :: t).
Proof.
  intros Hs H. destruct text as [|c text].
  { injection H as <-. split; [discriminate | intros [t E]; discriminate E]. }
  cbn [encode_utf_8 forallb] in *. apply andb_true_iff in Hs as [Hc Hs].
  destruct (encode_utf_8_ok text Hs) as (o & Eo & _). rewrite Eo in H.
  split.
  - intros B. exists text. f_equal.
    apply is_scalar_value_iff in Hc.
    unfold utf8_encode_char in H.
    destruct (c <? 0x80) eqn:E1; [|destruct (c <? 0x800) eqn:E2;
      [|destruct (c <? 0x10000) eqn:E3;
        [replace (is_surrogate c) with false in H
            by (unfold is_surrogate; lia)|]]];
      injection H as <-; cbn [app startswith BOM_UTF8] in B;
      repeat (apply andb_true_iff in B as [?%byte_eqb_eq B]);
      repeat match goal with
             | K : _ = n2b ?x |- _ =>
               apply (f_equal b2n) in K; rewrite b2n_n2b in K by dlia;
               cbv [b2n Byte.to_N] in K
             end; dlia.
  - intros [t [= -> ->]]. cbn in H. injection H as <-. reflexivity.
Qed.

(** *** Running the script *)

Lemma read_text_eq path (w : world) raw :
  files w !! path = Some raw ->
  read_text path w = (decode_bytes raw, with_events [EvOpenRead path] w).
Proof.
  intros H. unfold read_text, read_bytes, bind, emit, lift. cbn.
  now rewrite H.
Qed.

Lemma main_success rt argv (w : world) ns inp outp raw text out :
  parse_args rt argv = Parsed ns ->
  in_path ns = Some (StrVal inp) ->
  out_path ns = Some (StrVal outp) ->
  files w !! inp = Some raw ->
  decode_bytes raw = Ok text ->
  outp ∉ denied w ->
  encode_utf_8 (translate_newlines (rt_os rt) (repair text)) = Ok out ->
  main rt argv w = (Ok 0%Z, written inp outp out w).
Proof.
  intros Hp Hi Ho Hf Hd Hw He.
  unfold main, parse_args_io, bind. rewrite Hp. cbn [ret]. rewrite Hi.
  cbn [Path ret]. rewrite (read_text_eq _ _ _ Hf), Hd, Ho. cbn [Path ret].
  unfold write_text, bind, emit, set_file, lift. cbn.
  destruct (decide (outp ∈ denied w)) as [H|_]; [contradiction|].
  fold (repair text). now rewrite He.
Qed.

Lemma main_success_inv rt argv (w w' : world) z :
  main rt argv w = (Ok z, w') ->
  exists ns inp outp raw text out,
    parse_args rt argv = Parsed ns
    /\ in_path ns = Some (StrVal inp)
    /\ out_path ns = Some (StrVal outp)
    /\ files w !! inp = Some raw
    /\ decode_bytes raw = Ok text
    /\ (outp ∉ denied w)
    /\ encode_utf_8 (translate_newlines (rt_os rt) (repair text)) = Ok out
    /\ z = 0%Z /\ w' = written inp outp out w.
Proof.
  unfold main, parse_args_io, bind.
  destruct (parse_args rt argv) as [ns| |e] eqn:Hp; cbn; try discriminate.
  destruct (in_path ns) as [[inp|]|] eqn:Hi; cbn; try discriminate.
  unfold read_text, read_bytes, bind, emit, lift. cbn.
  destruct (files w !! inp) as [raw|] eqn:Hf; cbn; try discriminate.
  destruct (decode_bytes raw) as [text|] eqn:Hd; cbn; try discriminate.
  destruct (out_path ns) as [[outp|]|] eqn:Ho; cbn; try discriminate.
  unfold write_text, bind, emit, set_file, lift. cbn.
  destruct (decide (outp ∈ denied w)) as [|Hw].
  { destruct (short_write w !! outp); [|discriminate].
    cbn. destruct (encode_utf_8 _); discriminate. }
  fold (repair text).
  destruct (encode_utf_8 _) as [out|] eqn:He; cbn; [|discriminate].
  intros [= <- <-]. exists ns, inp, outp, raw, text, out.
  repeat split; auto.
Qed.

(** *** What is written *)

Lemma second_bom_utf16 bo rest :
  second_bom (BOM_UTF16 bo ++ rest) = startswith (BOM_UTF16 bo) rest.
Proof.
  destruct bo; unfold second_bom; cbn; rewrite ?orb_false_r; reflexivity.
Qed.

Lemma second_bom_utf8 rest :
  second_bom (BOM_UTF8 ++ rest) = startswith BOM_UTF8 rest.
Proof. reflexivity. Qed.

Lemma second_bom_plain raw :
  startswith [xff; xfe] raw = false ->
  startswith [xfe; xff] raw = false ->
  startswith [xef; xbb; xbf] raw = false ->
  second_bom raw = false.
Proof.
  intros A B C. unfold second_bom.
  destruct (startswith [xff; xfe; xff; xfe] raw) eqn:A';
    [apply (startswith_app [xff; xfe]) in A'; congruence|].
  destruct (startswith [xfe; xff; xfe; xff] raw) eqn:B';
    [apply (startswith_app [xfe; xff]) in B'; congruence|].
  destruct (startswith [xef; xbb; xbf; xef; xbb; xbf] raw) eqn:C';
    [apply (startswith_app [xef; xbb; xbf]) in C'; congruence|].
  reflexivity.
Qed.

(** The three ways [decode_bytes] can go. *)
Lemma decode_bytes_cases raw :
  (exists bo rest, raw = BOM_UTF16 bo ++ rest)
  \/ (exists rest, raw = BOM_UTF8 ++ rest)
  \/ (startswith [xff; xfe] raw = false
      /\ startswith [xfe; xff] raw = false
      /\ startswith [xef; xbb; xbf] raw = false).
Proof.
  destruct (startswith [xff; xfe] raw) eqn:A.
  { apply startswith_iff in A as [rest ->]. left.
    now exists LittleEndian, rest. }
  destruct (startswith [xfe; xff] raw) eqn:B.
  { apply startswith_iff in B as [rest ->]. left.
    now exists BigEndian, rest. }
  destruct (startswith [xef; xbb; xbf] raw) eqn:C.
  { apply startswith_iff in C as [rest ->]. right. left. now exists rest. }
  auto.
Qed.

Lemma decode_head_bom raw text :
  decode_bytes raw = Ok text ->
  (exists t, text = 0xFEFF :: t) <-> second_bom raw = true.
Proof.
  intros H.
  destruct (decode_bytes_cases raw)
    as [(bo & rest & ->)|[(rest & ->)|(A & B & C)]].
  - rewrite decode_bytes_utf16 in H. rewrite second_bom_utf16.
    now apply utf16_decode_head_bom.
  - rewrite decode_bytes_sig in H. injection H as <-.
    rewrite second_bom_utf8. apply utf8_decode_head_bom.
  - rewrite decode_bytes_plain in H by assumption. injection H as <-.
    rewrite second_bom_plain by assumption.
    rewrite utf8_decode_head_bom. unfold BOM_UTF8. rewrite C. tauto.
Qed.

(** C5 (amended). Whenever the program completes and writes its output,
    the bytes written are well-formed UTF-8: they encode the repaired
    text, newlines translated. The writer adds no byte-order mark, so the
    output starts with one exactly when the decoded text starts with
    U+FEFF, which is when the input starts with two byte-order marks of
    its encoding, the decoder removing only the first. *)
Theorem output_valid_utf8 rt argv (w w' : world) z :
  main rt argv w = (Ok z, w') ->
  exists ns inp outp raw text out,
    parse_args rt argv = Parsed ns
    /\ in_path ns = Some (StrVal inp)
    /\ out_path ns = Some (StrVal outp)
    /\ files w !! inp = Some raw
    /\ decode_bytes raw = Ok text
    /\ files w' !! outp = Some out
    /\ utf8_encodes out (translate_newlines (rt_os rt) (repair text))
    /\ valid_utf8 out
    /\ (startswith BOM_UTF8 out = true <-> second_bom raw = true).
Proof.
  intros (ns & inp & outp & raw & text & out
          & Hp & Hi & Ho & Hf & Hd & _ & He & -> & ->)%main_success_inv.
  exists ns, inp, outp, raw, text, out.
  assert (Hs : forallb is_scalar_value
                 (translate_newlines (rt_os rt) (repair text)) = true).
  { apply translate_newlines_scalar, repair_scalar.
    eapply decode_bytes_scalar; eauto. }
  destruct (encode_utf_8_ok _ Hs) as (out' & He' & Hv).
  rewrite He in He'. injection He' as <-.
  repeat split; auto.
  - cbn. apply lookup_insert_eq.
  - now exists (translate_newlines (rt_os rt) (repair text)).
  - intros B. apply (decode_head_bom _ _ Hd).
    apply repair_head_bom, (translate_newlines_head_bom (rt_os rt)).
    now apply (encode_head_bom _ _ Hs He).
  - intros B. apply (encode_head_bom _ _ Hs He).
    apply translate_newlines_head_bom, repair_head_bom.
    now apply (decode_head_bom _ _ Hd).
Qed.

(** *** ASCII input *)

Lemma is_ascii_lt b : is_ascii b = true <-> b2n b < 0x80.
Proof. unfold is_ascii. lia. Qed.

Lemma utf8_decode_replace_ascii raw :
  forallb is_ascii raw = true ->
  utf8_decode_replace raw = List.map b2n raw.
Proof.
  induction raw as [|b raw IH]; [reflexivity|]. cbn [forallb].
  intros [Hb Hr]%andb_true_iff. cbn [utf8_decode_replace List.map].
  cbv zeta. unfold is_ascii in Hb. rewrite Hb. f_equal. auto.
Qed.

Lemma ascii_no_bom raw :
  forallb is_ascii raw = true ->
  startswith [xff; xfe] raw = false
  /\ startswith [xfe; xff] raw = false
  /\ startswith [xef; xbb; xbf] raw = false.
Proof.
  destruct raw as [|b raw]; [auto|]. cbn [forallb startswith].
  intros [Hb%is_ascii_lt _]%andb_true_iff.
  repeat split; apply andb_false_iff; left;
    (destruct (byte_eqb _ b) eqn:E; [|reflexivity]);
    apply byte_eqb_eq in E; subst b; cbv in Hb; discriminate.
Qed.

Lemma RULES_heads_not_ascii r c :
  In r RULES -> c < 0x80 -> not_head (fst r) c = true.
Proof.
  rewrite RULES_eq. intros Hr Hc. cbn [In] in Hr.
  repeat (destruct Hr as [<-|Hr];
          [unfold not_head, quote3; cbn [fst forallb]; lia|]).
  destruct Hr.
Qed.

Lemma occurs_no_head alts s :
  forallb (not_head alts) s = true -> occurs alts s = false.
Proof.
  intros H. rewrite <- (app_nil_r s). now rewrite occurs_not_head.
Qed.

(** No pattern occurs in ASCII text. *)
Lemma ascii_clean raw :
  forallb is_ascii raw = true -> clean RULES (List.map b2n raw) = true.
Proof.
  intros H. unfold clean. apply forallb_forall. intros r Hr.
  apply negb_true_iff, occurs_no_head, forallb_forall.
  intros c (b & <- & Hb)%in_map_iff.
  apply RULES_heads_not_ascii; [exact Hr|].
  rewrite forallb_forall in H. now apply is_ascii_lt, H.
Qed.

Lemma encode_ascii raw :
  forallb is_ascii raw = true -> encode_utf_8 (List.map b2n raw) = Ok raw.
Proof.
  induction raw as [|b raw IH]; [reflexivity|]. cbn [forallb].
  intros [Hb Hr]%andb_true_iff. cbn [List.map encode_utf_8].
  unfold utf8_encode_char. unfold is_ascii in Hb. rewrite Hb.
  cbn [rbind]. rewrite (IH Hr). cbn. now rewrite n2b_b2n.
Qed.

Lemma translate_newlines_posix text : translate_newlines Posix text = text.
Proof.
  induction text as [|c text IH]; [reflexivity|].
  unfold translate_newlines in *. cbn [flat_map]. rewrite IH.
  destruct (c =? 0x0A) eqn:E; [apply N.eqb_eq in E as ->|]; reflexivity.
Qed.

Lemma translate_newlines_no_lf o text :
  ~ In 0x0A text -> translate_newlines o text = text.
Proof.
  induction text as [|c text IH]; [reflexivity|]. intros H.
  unfold translate_newlines in *. cbn [flat_map]. rewrite IH.
  - destruct (c =? 0x0A) eqn:E; [|reflexivity].
    apply N.eqb_eq in E as ->. exfalso. apply H. now left.
  - intros H'. apply H. now right.
Qed.

(** *** The required flags *)



















Lemma run_help rt argv (w : world) :
  parse_args rt argv = HelpExit ->
  run rt argv w = (0%Z, with_events [EvPrint Stdout HelpText] w).
Proof.
  intros H. unfold run, main, parse_args_io, bind. now rewrite H.
Qed.

Lemma run_error rt argv (w : world) e :
  parse_args rt argv = ErrorExit e ->
  run rt argv w
  = (2%Z, with_events [EvPrint Stderr (ErrorText e);
                       EvPrint Stderr UsageText] w).
Proof.
  intros H. unfold run, main, parse_args_io, bind. now rewrite H.
Qed.


(** *** The Decoder *)

Lemma file_world_lookup p raw : files (file_world p raw) !! p = Some raw.
Proof. apply lookup_singleton_eq. Qed.

Lemma example_parse o :
  parse_args (example_runtime o) example_argv
  = Parsed {| in_path := Some (StrVal (lit "in"));
              out_path := Some (StrVal (lit "out")) |}.
Proof. reflexivity. Qed.

Lemma example_main o raw text out :
  decode_bytes raw = Ok text ->
  encode_utf_8 (translate_newlines o (repair text)) = Ok out ->
  main (example_runtime o) example_argv (file_world (lit "in") raw)
  = (Ok 0%Z, written (lit "in") (lit "out") out
                     (file_world (lit "in") raw)).
Proof.
  intros Hd He.
  apply (main_success _ _ _ _ _ _ raw text out (example_parse o));
    [reflexivity | reflexivity | apply file_world_lookup | exact Hd
     | apply not_elem_of_empty | exact He].
Qed.

(** C1, at the failing input. The file holds a UTF-16 byte-order mark and
    one more byte: [read_text] raises [UnicodeDecodeError], and the run
    ends with a traceback and status 1 without writing the output. *)
Theorem utf16_malformed_raises :
  fst (read_text (lit "in") (file_world (lit "in") [xff; xfe; x00]))
  = Raise (UnicodeDecodeError "utf-16-le" TruncatedData)
  /\ run (example_runtime Posix) example_argv
         (file_world (lit "in") [xff; xfe; x00])
     = (1%Z,
        with_events
          [EvPrint Stderr
             (TracebackText (UnicodeDecodeError "utf-16-le" TruncatedData));
           EvOpenRead (lit "in")]
          (file_world (lit "in") [xff; xfe; x00])).
Proof.
  split.
  - now rewrite (read_text_eq _ _ _ (file_world_lookup _ _)).
  - unfold run, main, parse_args_io, bind. rewrite example_parse.
    cbn [ret in_path Path].
    now rewrite (read_text_eq _ _ _ (file_world_lookup _ _)).
Qed.

(** C4. For a file that starts with FF FE or FE FF, [read_text] gives what
    the strict UTF-16 decoder of that byte order gives on the bytes after
    the mark: it returns a text exactly when those bytes are the UTF-16
    encoding, in that byte order, of the text, so the mark itself is no
    part of the text. *)
Theorem read_text_utf16 (bo : byteorder) (rest : bytes) (path : str)
  (w : world) :
  files w !! path = Some (BOM_UTF16 bo ++ rest) ->
  fst (read_text path w) = utf16_decode_strict bo rest
  /\ forall text,
       fst (read_text path w) = Ok text
       <-> rest = utf16_encode bo text
           /\ forallb is_scalar_value text = true.
Proof.
  intros H. rewrite (read_text_eq _ _ _ H). cbn [fst].
  rewrite decode_bytes_utf16. split; [reflexivity|].
  intros text. split; [apply utf16_decode_ok|].
  intros [-> Hs]. now apply utf16_decode_encode.
Qed.

Lemma read_text_utf16_witness :
  fst (read_text (lit "in") (file_world (lit "in") [xfe; xff; x00; x41]))
  = utf16_decode_strict BigEndian [x00; x41]
  /\ forall text,
       fst (read_text (lit "in")
                      (file_world (lit "in") [xfe; xff; x00; x41]))
       = Ok text
       <-> [x00; x41] = utf16_encode BigEndian text
           /\ forallb is_scalar_value text = true.
Proof.
  apply (read_text_utf16 BigEndian [x00; x41]). vm_compute. reflexivity.
Defined.

(** C6. For a file that starts with EF BB BF, [read_text] drops these
    three bytes and returns, without raising, the UTF-8 decoding of the
    rest in which each maximal subpart of an ill-formed subsequence has
    become one U+FFFD; no other text is such a decoding. *)
Theorem read_text_utf8_sig (rest : bytes) (path : str) (w : world) :
  files w !! path = Some (BOM_UTF8 ++ rest) ->
  exists text,
    fst (read_text path w) = Ok text
    /\ decodes_with_replacement rest text
    /\ forall t, decodes_with_replacement rest t -> t = text.
Proof.
  intros H. rewrite (read_text_eq _ _ _ H). cbn [fst].
  exists (utf8_decode_replace rest). split; [apply decode_bytes_sig|].
  split; [apply utf8_decode_replace_spec|].
  intros t Ht. symmetry.
  exact (decodes_with_replacement_unique _ _
           (utf8_decode_replace_spec rest) _ Ht).
Qed.

Lemma read_text_utf8_sig_witness :
  exists text,
    fst (read_text (lit "in")
           (file_world (lit "in") [xef; xbb; xbf; x41; xff; xe2; x82]))
    = Ok text
    /\ decodes_with_replacement [x41; xff; xe2; x82] text
    /\ forall t, decodes_with_replacement [x41; xff; xe2; x82] t -> t = text.
Proof.
  apply (read_text_utf8_sig [x41; xff; xe2; x82]). vm_compute. reflexivity.
Defined.

(** C7. For a file that starts with none of the three byte-order marks,
    [read_text] returns, without raising, the UTF-8 decoding of the whole
    file in which each maximal subpart of an ill-formed subsequence has
    become one U+FFFD; no other text is such a decoding. *)
Theorem read_text_plain (raw : bytes) (path : str) (w : world) :
  files w !! path = Some raw ->
  startswith [xff; xfe] raw = false ->
  startswith [xfe; xff] raw = false ->
  startswith [xef; xbb; xbf] raw = false ->
  exists text,
    fst (read_text path w) = Ok text
    /\ decodes_with_replacement raw text
    /\ forall t, decodes_with_replacement raw t -> t = text.
Proof.
  intros H A B C. rewrite (read_text_eq _ _ _ H). cbn [fst].
  exists (utf8_decode_replace raw).
  split; [now apply decode_bytes_plain|].
  split; [apply utf8_decode_replace_spec|].
  intros t Ht. symmetry.
  exact (decodes_with_replacement_unique _ _
           (utf8_decode_replace_spec raw) _ Ht).
Qed.

Lemma read_text_plain_witness :
  exists text,
    fst (read_text (lit "in")
           (file_world (lit "in") [x41; x80; xc3; xa9; xf0; x9f])) = Ok text
    /\ decodes_with_replacement [x41; x80; xc3; xa9; xf0; x9f] text
    /\ forall t,
         decodes_with_replacement [x41; x80; xc3; xa9; xf0; x9f] t ->
         t = text.
Proof.
  apply (read_text_plain [x41; x80; xc3; xa9; xf0; x9f]);
    vm_compute; reflexivity.
Defined.

Example read_text_plain_example :
  fst (read_text (lit "in")
         (file_world (lit "in") [x41; x80; xc3; xa9; xf0; x9f]))
  = Ok [0x41; 0xFFFD; 0xE9; 0xFFFD].
Proof. now rewrite (read_text_eq _ _ _ (file_world_lookup _ _)). Qed.

(** *** Concrete runs *)

Lemma written_lookup inp outp out (w : world) :
  files (written inp outp out w) !! outp = Some out.
Proof. apply lookup_insert_eq. Qed.

(** C5 as stated fails: an input with two UTF-8 byte-order marks gives an
    output that starts with one. *)
Lemma output_bom_counterexample :
  exists w',
    main (example_runtime Posix) example_argv
         (file_world (lit "in") [xef; xbb; xbf; xef; xbb; xbf; x41])
    = (Ok 0%Z, w')
    /\ files w' !! lit "out" = Some [xef; xbb; xbf; x41]
    /\ startswith BOM_UTF8 [xef; xbb; xbf; x41] = true.
Proof.
  eexists. split; [|split].
  - apply (example_main Posix _ [0xFEFF; 0x41] [xef; xbb; xbf; x41]);
      reflexivity.
  - apply written_lookup.
  - reflexivity.
Qed.

Lemma output_valid_utf8_witness :
  exists ns inp outp raw text out,
    parse_args (example_runtime Windows) example_argv = Parsed ns
    /\ in_path ns = Some (StrVal inp)
    /\ out_path ns = Some (StrVal outp)
    /\ files (file_world (lit "in") [xff; xfe; x3d; xd8; x00; xde; x0a; x00])
       !! inp = Some raw
    /\ decode_bytes raw = Ok text
    /\ files (written (lit "in") (lit "out")
                [xf0; x9f; x98; x80; x0d; x0a]
                (file_world (lit "in")
                   [xff; xfe; x3d; xd8; x00; xde; x0a; x00]))
       !! outp = Some out
    /\ utf8_encodes out (translate_newlines Windows (repair text))
    /\ valid_utf8 out
    /\ (startswith BOM_UTF8 out = true <-> second_bom raw = true).
Proof.
  apply (output_valid_utf8 (example_runtime Windows) example_argv _ _ 0%Z).
  apply (example_main Windows _ [0x1F600; 0x0A]); reflexivity.
Defined.



(** C9 as stated fails: where a newline is written as CR LF, an ASCII
    file with a line feed is not written back byte for byte. *)
Lemma ascii_file_counterexample :
  forallb is_ascii [x41; x0a] = true
  /\ startswith [xff; xfe] [x41; x0a] = false
  /\ startswith [xfe; xff] [x41; x0a] = false
  /\ startswith [xef; xbb; xbf] [x41; x0a] = false
  /\ clean RULES (List.map b2n [x41; x0a]) = true
  /\ exists w',
       main (example_runtime Windows) example_argv
            (file_world (lit "in") [x41; x0a])
       = (Ok 0%Z, w')
       /\ files w' !! lit "out" = Some [x41; x0d; x0a]
       /\ [x41; x0d; x0a] <> [x41; x0a].
Proof.
  repeat (split; [reflexivity|]). eexists. split; [|split].
  - apply (example_main Windows _ [0x41; 0x0A] [x41; x0d; x0a]);
      reflexivity.
  - apply written_lookup.
  - discriminate.
Qed.

Lemma repair_characters_witness :
  (forall c, In c (repair (lit "{}")) ->
             In c (lit "{}") \/ c = 0x2D \/ c = 0x2E)
  /\ (clean RULES (lit "{}") = true -> repair (lit "{}") = lit "{}").
Proof. exact (repair_characters (lit "{}")). Defined.

(** The scenarios of the specification. *)
Example repair_en_dash :
  repair [0x61; 0xD4; 0xC7; 0xF4; 0x62] = [0x61; 0x2D; 0x62].
Proof. reflexivity. Qed.

Example repair_ellipsis :
  repair [0xE2; 0x20AC; 0xA6] = lit "...".
Proof. reflexivity. Qed.

Example repair_quote3 : repair quote3 = lit "-".
Proof. reflexivity. Qed.

(** Why the longest pattern comes first: the shortest rule alone leaves
    the end of the artifact behind. *)
Example shortest_rule_leaves_residue :
  re_sub [[0x627; 0x22; 0x627; 0x62E]] (lit "-") quote3
  = [0x2D; 0x61; 0x64F].
Proof. reflexivity. Qed.

(** *** The pipeline as a whole *)

(** X1. Whatever [read_text] returns can be written: the text holds
    scalar values only, the rules add [-] and [.], and the strict
    encoder accepts every scalar value. *)
Theorem pipeline_encodes (o : os) (raw : bytes) (text : str) :
  decode_bytes raw = Ok text ->
  exists out,
    encode_utf_8 (translate_newlines o (repair text)) = Ok out
    /\ utf8_encodes out (translate_newlines o (repair text)).
Proof.
  intros H. apply encode_utf_8_ok, translate_newlines_scalar, repair_scalar.
  exact (decode_bytes_scalar _ _ H).
Qed.

Lemma pipeline_encodes_witness :
  exists out,
    encode_utf_8 (translate_newlines Windows
                    (repair [0xD4; 0xC7; 0xF4; 0x0A])) = Ok out
    /\ utf8_encodes out (translate_newlines Windows
                           (repair [0xD4; 0xC7; 0xF4; 0x0A])).
Proof.
  apply (pipeline_encodes Windows [xc3; x94; xc3; x87; xc3; xb4; x0a]).
  reflexivity.
Defined.

(** X2. A file of well-formed UTF-8 that starts with no byte-order mark
    is read as the text it encodes: nothing is replaced. *)
Theorem well_formed_file_read_exactly (raw : bytes) (text : str) :
  utf8_encodes raw text ->
  startswith [xff; xfe] raw = false ->
  startswith [xfe; xff] raw = false ->
  startswith [xef; xbb; xbf] raw = false ->
  decode_bytes raw = Ok text.
Proof.
  intros H A B C. rewrite decode_bytes_plain by assumption.
  now rewrite (utf8_decode_replace_valid _ _ H).
Qed.

Lemma well_formed_file_read_exactly_witness :
  decode_bytes ([xc3; xa9] ++ [x41] ++ [])
  = Ok [scalar_of [xc3; xa9]; scalar_of [x41]].
Proof.
  apply well_formed_file_read_exactly; [|reflexivity..].
  repeat (constructor; [reflexivity|]). constructor.
Defined.

(** X3. The program completes with status 0 and writes the output file
    whenever the command line gives both paths, the input file can be
    read and decoded, and the output path can be written. The file then
    holds the UTF-8 encoding of the repaired text in which every newline
    is written as the line separator of the platform; where that is a
    line feed, or the text has no line feed, this is the UTF-8 encoding
    of the repaired text itself. *)
Theorem main_completes rt argv (w : world) ns inp outp raw text :
  parse_args rt argv = Parsed ns ->
  in_path ns = Some (StrVal inp) ->
  out_path ns = Some (StrVal outp) ->
  files w !! inp = Some raw ->
  decode_bytes raw = Ok text ->
  outp ∉ denied w ->
  exists out,
    run rt argv w = (0%Z, written inp outp out w)
    /\ files (written inp outp out w) !! outp = Some out
    /\ encode_utf_8 (translate_newlines (rt_os rt) (repair text)) = Ok out
    /\ utf8_encodes out (translate_newlines (rt_os rt) (repair text))
    /\ (rt_os rt = Posix \/ ~ In 0x0A text ->
        encode_utf_8 (repair text) = Ok out).
Proof.
  intros Hp Hi Ho Hf Hd Hw.
  assert (Hs : forallb is_scalar_value
                 (translate_newlines (rt_os rt) (repair text)) = true).
  { apply translate_newlines_scalar, repair_scalar.
    eapply decode_bytes_scalar; eauto. }
  destruct (encode_utf_8_ok _ Hs) as (out & He & Hv).
  exists out. split; [|split; [apply written_lookup|]].
  - unfold run.
    now rewrite (main_success _ _ _ _ _ _ _ _ _ Hp Hi Ho Hf Hd Hw He).
  - split; [exact He|]. split; [exact Hv|].
    intros [Hos|Hn].
    + rewrite Hos, translate_newlines_posix in He. exact He.
    + rewrite translate_newlines_no_lf in He; [exact He|].
      intros [H|[H|H]]%repair_in; [exact (Hn H) | discriminate..].
Qed.

Lemma main_completes_witness :
  exists out,
    run (example_runtime Windows) example_argv
        (file_world (lit "in") [xc3; x94; xc3; x87; xc3; xb4; x0a])
    = (0%Z, written (lit "in") (lit "out") out
              (file_world (lit "in") [xc3; x94; xc3; x87; xc3; xb4; x0a]))
    /\ files (written (lit "in") (lit "out") out
               (file_world (lit "in")
                  [xc3; x94; xc3; x87; xc3; xb4; x0a]))
       !! lit "out" = Some out
    /\ encode_utf_8 (translate_newlines Windows
                       (repair [0xD4; 0xC7; 0xF4; 0x0A])) = Ok out
    /\ utf8_encodes out (translate_newlines Windows
                           (repair [0xD4; 0xC7; 0xF4; 0x0A]))
    /\ (Windows = Posix \/ ~ In 0x0A [0xD4; 0xC7; 0xF4; 0x0A] ->
        encode_utf_8 (repair [0xD4; 0xC7; 0xF4; 0x0A]) = Ok out).
Proof.
  apply (main_completes (example_runtime Windows) example_argv _ _
           (lit "in") (lit "out")
           [xc3; x94; xc3; x87; xc3; xb4; x0a] [0xD4; 0xC7; 0xF4; 0x0A]
           (example_parse Windows));
    [reflexivity | reflexivity | apply file_world_lookup | reflexivity
     | apply not_elem_of_empty].
Defined.

(** *** Words a pattern cannot touch *)

Lemma clash_sw a b y :
  clash a b = true -> str_startswith a (b ++ y) = false.
Proof.
  revert b. induction a as [|x a IH]; intros [|c b]; cbn [clash];
    try discriminate.
  cbn [app str_startswith]. intros [H|H]%orb_true_iff.
  - apply andb_false_iff. left. now apply negb_true_iff.
  - rewrite (IH _ H). apply andb_false_r.
Qed.

Lemma re_sub_copy alts repl w y :
  (forall k, (k < length w)%nat ->
             match_here alts (skipn k w ++ y) = None) ->
  re_sub alts repl (w ++ y) = w ++ re_sub alts repl y.
Proof.
  induction w as [|c w IH]; intros H; [reflexivity|]. cbn [app].
  rewrite re_sub_nomatch by (apply (H 0%nat); cbn [length]; lia).
  f_equal. apply IH. intros k Hk. apply (H (S k)). cbn [length]. lia.
Qed.

Lemma match_here_all_false alts s :
  (forall a, In a alts -> str_startswith a s = false) ->
  match_here alts s = None.
Proof.
  intros H. unfold match_here.
  destruct (find _ alts) as [a|] eqn:F; [|reflexivity].
  apply find_some in F as [Ha Hs]. rewrite (H a Ha) in Hs. discriminate.
Qed.

Lemma re_sub_untouched alts repl w y :
  untouched alts w = true ->
  re_sub alts repl (w ++ y) = w ++ re_sub alts repl y.
Proof.
  unfold untouched. rewrite forallb_forall. intros H.
  apply re_sub_copy. intros k Hk. apply match_here_all_false.
  intros a Ha. apply clash_sw.
  specialize (H k). rewrite in_seq, forallb_forall in H.
  apply H; [lia | exact Ha].
Qed.

(** *** Boundaries no match can straddle *)

Lemma sw_suffixes_clash b w (x : str) y :
  (forall j, (j < length b)%nat -> clash (skipn j b) w = true) ->
  str_startswith b (x ++ w ++ y) = str_startswith b x.
Proof.
  revert b. induction x as [|c x IH]; intros [|b0 b] H; try reflexivity.
  - cbn [app]. rewrite clash_sw; [reflexivity|].
    apply (H 0%nat). cbn [length]. lia.
  - cbn [app str_startswith]. f_equal. apply IH.
    intros j Hj. apply (H (S j)). cbn [length]. lia.
Qed.

Lemma match_here_no_straddle alts c (x : str) w y :
  no_straddle alts w = true ->
  match_here alts ((c :: x) ++ w ++ y) = match_here alts (c :: x).
Proof.
  unfold no_straddle. rewrite forallb_forall. intros H.
  apply match_here_ext. intros [|a0 a] Ha; [reflexivity|].
  cbn [app str_startswith]. f_equal. apply sw_suffixes_clash.
  intros j Hj. specialize (H _ Ha). rewrite forallb_forall in H.
  apply (H (S j)). apply in_seq. cbn [length]. lia.
Qed.

Lemma re_sub_split alts repl (x : str) w y :
  nonempty alts = true -> no_straddle alts w = true ->
  re_sub alts repl (x ++ w ++ y)
  = re_sub alts repl x ++ re_sub alts repl (w ++ y).
Proof.
  intros Hne Hw. induction x as [x IH] using str_length_ind.
  destruct x as [|c x]; [reflexivity|].
  pose proof (match_here_no_straddle alts c x w y Hw) as E.
  destruct (match_here alts (c :: x)) as [n|] eqn:M.
  - pose proof (match_here_positive _ _ _ Hne M) as Hn.
    rewrite (re_sub_match _ _ _ _ E Hn), (re_sub_match _ _ _ _ M Hn).
    apply match_here_some in M as (a & _ & Hs%sw_length & ->).
    rewrite skipn_app.
    replace (length a - length (c :: x))%nat with 0%nat by lia.
    change (skipn 0 (w ++ y)) with (w ++ y).
    rewrite IH, app_assoc; [reflexivity|].
    rewrite length_skipn. cbn [length] in *. lia.
  - cbn [app] in *. rewrite (re_sub_nomatch _ _ _ _ E),
      (re_sub_nomatch _ _ _ _ M), IH by (cbn [length]; lia).
    reflexivity.
Qed.

(** An artifact at the start of the text is replaced. *)
Lemma re_sub_here alts repl a y :
  match_here alts (a ++ y) = Some (length a) -> (0 < length a)%nat ->
  re_sub alts repl (a ++ y) = repl ++ re_sub alts repl y.
Proof.
  intros M Ha. rewrite (re_sub_match _ _ _ _ M Ha).
  now rewrite drop_app_length.
Qed.

(** The first character of the result is the first of the text or of
    the replacement. *)
Lemma re_sub_head_other alts repl e s :
  (0 < length repl)%nat -> mem e repl = false ->
  str_startswith [e] s = false ->
  str_startswith [e] (re_sub alts repl s) = false.
Proof.
  intros Hl Hm Hs. destruct s as [|c s]; [reflexivity|].
  destruct (match_here alts (c :: s)) as [n|] eqn:M.
  - unfold re_sub. cbn [sub_from]. rewrite M.
    destruct repl as [|r repl]; [cbn [length] in Hl; lia|].
    cbn [app str_startswith]. cbn [mem existsb] in Hm.
    apply orb_false_iff in Hm as [-> _]. reflexivity.
  - rewrite (re_sub_nomatch _ _ _ _ M). exact Hs.
Qed.

Lemma sw_app_same a b y :
  str_startswith (a ++ b) (a ++ y) = str_startswith b y.
Proof.
  induction a as [|x a IH]; [reflexivity|]. cbn [app str_startswith].
  now rewrite N.eqb_refl, IH.
Qed.

Lemma sw_head_false e t s :
  str_startswith [e] s = false -> str_startswith (e :: t) s = false.
Proof.
  destruct s as [|c s]; [reflexivity|]. cbn [str_startswith].
  rewrite andb_true_r. now intros ->.
Qed.

(** *** The artifacts, one by one *)

Lemma artifacts_eq :
  artifacts RULES =
  [ ([0xD4; 0xC7; 0xF4], [0x2D]); ([0xD4; 0xC7; 0xF6], [0x2D]);
    ([0xE2; 0x20AC; 0x201C], [0x2D]); ([0xE2; 0x20AC; 0x201D], [0x2D]);
    ([0xD4; 0xC7; 0xAA], [0x2E; 0x2E; 0x2E]);
    ([0xE2; 0x20AC; 0xA6], [0x2E; 0x2E; 0x2E]);
    (quote3, [0x2D]);
    ([0x627; 0x22; 0x627; 0x62E; 0x61], [0x2D]);
    ([0x627; 0x22; 0x627; 0x62E], [0x2D]) ].
Proof. reflexivity. Qed.

(** One rule applied to [x ++ a ++ y], or to [x ++ r ++ y] once the
    artifact [a] has become [r]: the rule leaves the word alone or
    replaces it, and rewrites [x] and [y] on their own. *)
Ltac rule_step a r :=
  first
    [ rewrite (re_sub_split _ _ _ a) by reflexivity;
      first [ rewrite (re_sub_untouched _ _ a) by reflexivity
            | rewrite (re_sub_here _ _ a) by (reflexivity || (cbv; lia)) ]
    | rewrite (re_sub_split _ _ _ r) by reflexivity;
      rewrite (re_sub_not_head _ _ r) by reflexivity ].

(** A pattern that extends the word [w] does not match at [w ++ y] when
    [y] does not start with the next character of the pattern. *)
Lemma re_sub_copy_longer w e t repl y :
  untouched [w ++ e :: t] (tl w) = true ->
  str_startswith [e] y = false ->
  re_sub [w ++ e :: t] repl (w ++ y) = w ++ re_sub [w ++ e :: t] repl y.
Proof.
  intros Hu Hy. destruct w as [|c w].
  { cbn [app]. reflexivity. }
  cbn [tl] in Hu. change ((c :: w) ++ y) with (c :: (w ++ y)).
  rewrite re_sub_nomatch.
  - cbn [app]. f_equal. exact (re_sub_untouched _ _ _ _ Hu).
  - rewrite match_here_single.
    change (c :: (w ++ y)) with ((c :: w) ++ y).
    now rewrite sw_app_same, (sw_head_false _ _ _ Hy).
Qed.

Ltac head_kept :=
  repeat (apply re_sub_head_other; [cbv; lia | reflexivity |]); assumption.

Lemma repair_artifact (x : str) a r y :
  artifact_here (artifacts RULES) (a ++ y) = Some (a, r) ->
  repair (x ++ a ++ y) = repair x ++ r ++ repair y.
Proof.
  unfold artifact_here. rewrite artifacts_eq. cbn [find fst].
  repeat match goal with
         | |- context [if str_startswith ?p ?s then _ else _] =>
           let E := fresh "E" in destruct (str_startswith p s) eqn:E
         end; intros [= <- <-].
  1-7: match goal with
       | |- repair (_ ++ ?a' ++ _) = _ ++ ?r' ++ _ =>
         rewrite !repair_eq; do 5 rule_step a' r'; reflexivity
       end.
  - (* line 21: the text does not go on with U+064F *)
    change quote3 with ([0x627; 0x22; 0x627; 0x62E; 0x61] ++ [0x64F]) in E5.
    rewrite sw_app_same in E5.
    rewrite !repair_eq.
    do 2 rule_step [0x627; 0x22; 0x627; 0x62E; 0x61] [0x2D].
    rewrite (re_sub_split _ _ _ [0x627; 0x22; 0x627; 0x62E; 0x61])
      by reflexivity.
    change [quote3]
      with [[0x627; 0x22; 0x627; 0x62E; 0x61] ++ 0x64F :: []].
    rewrite re_sub_copy_longer;
      [|reflexivity|head_kept].
    do 2 rule_step [0x627; 0x22; 0x627; 0x62E; 0x61] [0x2D].
    reflexivity.
  - (* line 22: the text does not go on with [a] *)
    change [0x627; 0x22; 0x627; 0x62E; 0x61]
      with ([0x627; 0x22; 0x627; 0x62E] ++ [0x61]) in E6.
    rewrite sw_app_same in E6.
    rewrite !repair_eq.
    do 2 rule_step [0x627; 0x22; 0x627; 0x62E] [0x2D].
    rewrite (re_sub_split _ _ _ [0x627; 0x22; 0x627; 0x62E]) by reflexivity.
    change [quote3]
      with [[0x627; 0x22; 0x627; 0x62E] ++ 0x61 :: [0x64F]].
    rewrite re_sub_copy_longer;
      [|reflexivity|head_kept].
    rewrite (re_sub_split _ _ _ [0x627; 0x22; 0x627; 0x62E]) by reflexivity.
    change [[0x627; 0x22; 0x627; 0x62E; 0x61]]
      with [[0x627; 0x22; 0x627; 0x62E] ++ 0x61 :: []].
    rewrite re_sub_copy_longer;
      [|reflexivity|head_kept].
    rule_step [0x627; 0x22; 0x627; 0x62E] [0x2D].
    reflexivity.
Qed.

(** *** A character at which no artifact starts *)

Lemma apply_rules_cons all todo c t :
  rules_ok all = true -> incl todo all ->
  (forall r, In r todo -> match_here (fst r) (c :: t) = None) ->
  apply_rules todo (c :: t) = c :: apply_rules todo t.
Proof.
  intros Hok. revert t.
  induction todo as [|r todo IH]; intros t Hin H; [reflexivity|].
  change (apply_rules (r :: todo) (c :: t))
    with (apply_rules todo (re_sub (fst r) (snd r) (c :: t))).
  change (apply_rules (r :: todo) t)
    with (apply_rules todo (re_sub (fst r) (snd r) t)).
  assert (Hr : match_here (fst r) (c :: t) = None) by (apply H; now left).
  rewrite (re_sub_nomatch _ _ _ _ Hr).
  apply IH; [intros x Hx; apply Hin; now right|].
  intros r' Hr'.
  destruct (rules_ok_in _ _ Hok (Hin r' (or_intror Hr'))) as (Hne & _ & Hav).
  destruct (rules_ok_in _ _ Hok (Hin r (or_introl eq_refl))) as (_ & Hl & _).
  apply match_here_copied; auto.
  - apply Hav, Hin. now left.
  - apply H. now right.
Qed.

Lemma artifact_here_none rules s r :
  artifact_here (artifacts rules) s = None -> In r rules ->
  match_here (fst r) s = None.
Proof.
  intros H Hr. apply match_here_all_false. intros a Ha.
  apply (find_none _ _ H (a, snd r)).
  unfold artifacts. apply in_flat_map. exists r. split; [exact Hr|].
  apply in_map_iff. now exists a.
Qed.

Lemma artifact_here_some arts s a r :
  artifact_here arts s = Some (a, r) -> exists y, s = a ++ y.
Proof.
  intros H. apply find_some in H as [_ H]. now apply sw_iff in H.
Qed.

Lemma replace_from_skip arts k s :
  replace_from arts k s = replace_artifacts arts (skipn k s).
Proof.
  revert k. induction s as [|c s IH]; intros [|k]; try reflexivity.
  cbn [replace_from skipn]. apply IH.
Qed.

Lemma replace_artifacts_here arts a r y :
  artifact_here arts (a ++ y) = Some (a, r) -> (0 < length a)%nat ->
  replace_artifacts arts (a ++ y) = r ++ replace_artifacts arts y.
Proof.
  intros H Ha. destruct a as [|c a]; [cbn [length] in Ha; lia|].
  unfold replace_artifacts at 1. cbn [app replace_from].
  change (c :: a ++ y) with ((c :: a) ++ y). rewrite H.
  rewrite replace_from_skip. cbn [length Nat.sub].
  now rewrite Nat.sub_0_r, drop_app_length.
Qed.

Lemma artifacts_nonempty a r :
  In (a, r) (artifacts RULES) -> (0 < length a)%nat.
Proof.
  rewrite artifacts_eq. cbn [In]. intros H.
  repeat (destruct H as [[= <- <-]|H]; [cbv; lia|]). destruct H.
Qed.

(** *** The result holds no pattern, and is no longer than the text *)

Lemma re_sub_length alts repl (s : str) :
  (forall a, In a alts -> (length repl <= length a)%nat) ->
  (length (re_sub alts repl s) <= length s)%nat.
Proof.
  intros H. induction s as [s IH] using str_length_ind.
  destruct s as [|c s]; [reflexivity|].
  destruct (match_here alts (c :: s)) as [n|] eqn:M.
  - destruct (match_here_some _ _ _ M) as (a & Ha & Hs%sw_length & ->).
    specialize (H _ Ha). destruct a as [|a0 a].
    + destruct repl; [|cbn [length] in H; lia].
      unfold re_sub. cbn [sub_from]. rewrite M, sub_from_skip.
      cbn [length Nat.sub app]. change (skipn 0 s) with s.
      assert (length (re_sub alts [] s) <= length s)%nat
        by (apply IH; cbn [length]; lia).
      lia.
    + rewrite (re_sub_match _ _ _ _ M) by (cbn [length]; lia).
      rewrite length_app.
      assert (length (re_sub alts repl (skipn (length (a0 :: a)) (c :: s)))
              <= length (skipn (length (a0 :: a)) (c :: s)))%nat
        by (apply IH; rewrite length_skipn; cbn [length]; lia).
      rewrite length_skipn in *. cbn [length] in *. lia.
  - rewrite (re_sub_nomatch _ _ _ _ M). cbn [length].
    assert (length (re_sub alts repl s) <= length s)%nat
      by (apply IH; cbn [length]; lia).
    lia.
Qed.

Lemma apply_rules_length rules (s : str) :
  shrinking rules = true ->
  (length (apply_rules rules s) <= length s)%nat.
Proof.
  revert s. induction rules as [|r rules IH]; intros s; [reflexivity|].
  unfold shrinking. cbn [forallb]. intros [Hr H]%andb_true_iff.
  change (apply_rules (r :: rules) s)
    with (apply_rules rules (re_sub (fst r) (snd r) s)).
  etransitivity; [apply IH, H|]. apply re_sub_length.
  rewrite forallb_forall in Hr. intros a Ha. now apply Nat.leb_le, Hr.
Qed.

(** *** Cutting the text where no pattern can continue *)

Lemma apply_rules_nil rules : apply_rules rules [] = [].
Proof. induction rules; [reflexivity | assumption]. Qed.

Lemma inner_free_no_straddle alts c :
  forallb (fun a => negb (mem c (tl a))) alts = true ->
  no_straddle alts [c] = true.
Proof.
  rewrite forallb_forall. intros H. unfold no_straddle.
  apply forallb_forall. intros a Ha. apply forallb_forall.
  intros k [Hk1 Hk2]%in_seq. specialize (H a Ha).
  apply negb_true_iff in H.
  destruct a as [|a0 a]; [cbn [length] in Hk2; lia|].
  destruct k as [|j]; [lia|]. cbn [tl skipn length] in *.
  destruct (skipn j a) as [|d rest] eqn:E.
  { apply (f_equal (@length codepoint)) in E.
    rewrite length_skipn in E. cbn [length] in E. lia. }
  cbn [clash]. apply orb_true_iff. left. apply negb_true_iff, N.eqb_neq.
  intros ->. assert (In c a) by (apply (in_skipn j); rewrite E; now left).
  apply mem_true in H0. congruence.
Qed.

Lemma inner_free_in rules r c :
  inner_free rules c = true -> In r rules ->
  forallb (fun a => negb (mem c (tl a))) (fst r) = true.
Proof.
  unfold inner_free. rewrite forallb_forall. intros H Hr. exact (H r Hr).
Qed.

Lemma avoids_inner_free rules r c :
  rules_ok rules = true -> In r rules -> In c (snd r) ->
  inner_free rules c = true.
Proof.
  intros Hok Hr Hc. unfold inner_free. apply forallb_forall. intros r' Hr'.
  apply forallb_forall. intros a Ha. apply negb_true_iff.
  destruct (mem c (tl a)) eqn:M; [|reflexivity]. apply mem_true in M.
  destruct (rules_ok_in _ _ Hok Hr') as (_ & _ & Hav).
  exfalso. apply (avoids_in _ _ a c (Hav r Hr) Ha); [|exact Hc].
  destruct a; [destruct M | now right].
Qed.

Lemma boundary_re_sub rules r z :
  rules_ok rules = true -> In r rules ->
  boundary rules z = true ->
  boundary rules (re_sub (fst r) (snd r) z) = true.
Proof.
  intros Hok Hr Hz. destruct z as [|c z]; [reflexivity|].
  destruct (match_here (fst r) (c :: z)) as [n|] eqn:M.
  - unfold re_sub. cbn [sub_from]. rewrite M.
    destruct (rules_ok_in _ _ Hok Hr) as (_ & Hl & _).
    destruct (snd r) as [|d repl] eqn:E; [cbn [length] in Hl; lia|].
    cbn [app boundary]. apply (avoids_inner_free rules r); auto.
    rewrite E. now left.
  - now rewrite (re_sub_nomatch _ _ _ _ M).
Qed.

Lemma apply_rules_split all todo (x : str) z :
  rules_ok all = true -> incl todo all -> boundary all z = true ->
  apply_rules todo (x ++ z) = apply_rules todo x ++ apply_rules todo z.
Proof.
  intros Hok. revert x z.
  induction todo as [|r todo IH]; intros x z Hin Hz; [reflexivity|].
  change (apply_rules (r :: todo) ?t)
    with (apply_rules todo (re_sub (fst r) (snd r) t)).
  assert (Hr : In r all) by (apply Hin; now left).
  destruct (rules_ok_in _ _ Hok Hr) as (Hne & _ & _).
  assert (E : re_sub (fst r) (snd r) (x ++ z)
              = re_sub (fst r) (snd r) x ++ re_sub (fst r) (snd r) z).
  { destruct z as [|c z]; [now rewrite !app_nil_r|].
    apply (re_sub_split _ _ x [c] z Hne).
    apply inner_free_no_straddle. now apply (inner_free_in all). }
  rewrite E. apply IH; [intros y Hy; apply Hin; now right|].
  now apply boundary_re_sub.
Qed.

Lemma foreign_boundary rules c z :
  foreign rules c = true -> boundary rules (c :: z) = true.
Proof.
  unfold foreign, boundary, inner_free. rewrite !forallb_forall.
  intros H r Hr. specialize (H r Hr). unfold avoids in H.
  rewrite forallb_forall in *. intros a Ha. specialize (H a Ha).
  rewrite forallb_forall in H. destruct (mem c (tl a)) eqn:M; [|reflexivity].
  apply mem_true in M.
  assert (Hc : In c a) by (destruct a; [destruct M | now right]).
  specialize (H c Hc). cbn [mem existsb] in H.
  now rewrite N.eqb_refl in H.
Qed.

Lemma foreign_no_match rules r c z :
  rules_ok rules = true -> foreign rules c = true -> In r rules ->
  match_here (fst r) (c :: z) = None.
Proof.
  intros Hok H Hr. apply match_here_not_head.
  destruct (rules_ok_in _ _ Hok Hr) as (Hne & _ & _).
  apply (avoids_not_head [c]); [exact Hne | | now left].
  unfold foreign in H. rewrite forallb_forall in H. exact (H r Hr).
Qed.

Lemma apply_rules_foreign rules (x : str) c y :
  rules_ok rules = true -> foreign rules c = true ->
  apply_rules rules (x ++ c :: y)
  = apply_rules rules x ++ c :: apply_rules rules y.
Proof.
  intros Hok Hc.
  rewrite (apply_rules_split rules rules x (c :: y) Hok (incl_refl _))
    by now apply foreign_boundary.
  f_equal. apply (apply_rules_cons rules); [exact Hok | apply incl_refl|].
  intros r Hr. now apply (foreign_no_match rules).
Qed.

(** *** The rules as one pass *)

(** X4. The five substitutions, applied one after the other, give what a
    single scan of the text gives that replaces, at each position, the
    first artifact of the rules (in the order of the rules) that starts
    there, and resumes after it. *)
Theorem repair_single_pass (s : str) :
  repair s = replace_artifacts (artifacts RULES) s.
Proof.
  induction s as [s IH] using str_length_ind.
  destruct s as [|c s]; [reflexivity|].
  destruct (artifact_here (artifacts RULES) (c :: s)) as [[a r]|] eqn:E.
  - destruct (artifact_here_some _ _ _ _ E) as [y Ey]. rewrite Ey in *.
    pose proof (artifacts_nonempty a r
                  (proj1 (find_some _ _ E))) as Ha.
    rewrite (replace_artifacts_here _ _ _ _ E Ha).
    rewrite <- IH by (rewrite length_app; lia).
    apply (repair_artifact [] a r y E).
  - unfold replace_artifacts. cbn [replace_from]. rewrite E.
    fold (replace_artifacts (artifacts RULES) s).
    rewrite <- IH by (cbn [length]; lia).
    apply (apply_rules_cons RULES); [exact RULES_ok | apply incl_refl|].
    intros r Hr. exact (artifact_here_none RULES _ r E Hr).
Qed.

(** X5. Wherever an artifact stands, with any text before it, it is
    replaced by the replacement of its rule, and the text before and the
    text after are repaired as they would be on their own; for the two
    shorter quote-adjacent artifacts this holds when the text does not
    go on as a longer one. *)
Theorem repair_replaces_artifact (before a r after : str) :
  artifact_here (artifacts RULES) (a ++ after) = Some (a, r) ->
  repair (before ++ a ++ after) = repair before ++ r ++ repair after.
Proof. apply repair_artifact. Qed.

Lemma repair_replaces_artifact_witness :
  repair ([0x627; 0x22] ++ [0xE2; 0x20AC; 0xA6] ++ [0x61])
  = repair [0x627; 0x22] ++ [0x2E; 0x2E; 0x2E] ++ repair [0x61].
Proof. apply repair_replaces_artifact. reflexivity. Defined.

(** X6. The text can be cut before any character that stands in no
    pattern after the first place: the two parts are repaired on their
    own. *)
Theorem repair_cut (x z : str) :
  boundary RULES z = true -> repair (x ++ z) = repair x ++ repair z.
Proof.
  intros H. apply (apply_rules_split RULES RULES x z RULES_ok);
    [apply incl_refl | exact H].
Qed.

Lemma repair_cut_witness :
  repair ([0x61; 0xD4; 0xC7] ++ [0xD4; 0xC7; 0xF4])
  = repair [0x61; 0xD4; 0xC7] ++ repair [0xD4; 0xC7; 0xF4].
Proof. apply repair_cut. reflexivity. Defined.

(** X7. A character that is in no pattern stays where it is, and the
    text on either side of it is repaired on its own. *)
Theorem repair_keeps_foreign (x : str) (c : codepoint) (y : str) :
  foreign RULES c = true ->
  repair (x ++ c :: y) = repair x ++ c :: repair y.
Proof. intros H. now apply apply_rules_foreign; [exact RULES_ok|]. Qed.

Lemma repair_keeps_foreign_witness :
  repair ([0xD4; 0xC7; 0xF4] ++ 0x0A :: [0xE2; 0x20AC; 0xA6])
  = repair [0xD4; 0xC7; 0xF4] ++ 0x0A :: repair [0xE2; 0x20AC; 0xA6].
Proof. apply repair_keeps_foreign. reflexivity. Defined.

(** X8. No pattern of any rule occurs in the repaired text. *)
Theorem repair_leaves_no_pattern (s : str) : clean RULES (repair s) = true.
Proof.
  apply (apply_rules_cleans RULES [] RULES s RULES_ok);
    [intros ? [] | apply incl_refl | reflexivity].
Qed.

(** X9. The repaired text is never longer than the text. *)
Theorem repair_not_longer (s : str) : (length (repair s) <= length s)%nat.
Proof. now apply apply_rules_length. Qed.

(** *** Encoding what was decoded *)

Lemma n2b_eq n b : n = b2n b -> n2b n = b.
Proof. intros ->. apply n2b_b2n. Qed.

(** The encoder gives back the well-formed sequence of a scalar value. *)
Lemma utf8_encode_char_scalar_of w :
  well_formed_sequence w = true -> utf8_encode_char (scalar_of w) = Ok w.
Proof.
  intros H.
  destruct w as [|a [|b [|c [|d [|e w]]]]]; try discriminate H;
    wf_hyp H; unfold scalar_of, utf8_encode_char, is_surrogate;
    rewrite ?is_continuation_range, ?bad_second3_false, ?bad_second4_false
      in H;
    repeat match goal with
           | |- context [if ?c then _ else _] =>
             let E := fresh "E" in destruct c eqn:E; try (exfalso; dlia)
           end;
    repeat f_equal; apply n2b_eq; dlia.
Qed.

Lemma encode_utf_8_of_encodes raw text :
  utf8_encodes raw text -> encode_utf_8 text = Ok raw.
Proof.
  induction 1 as [|w r t Hw Hr IH]; [reflexivity|].
  cbn [encode_utf_8].
  now rewrite (utf8_encode_char_scalar_of _ Hw), IH.
Qed.

Lemma encode_utf_8_app a b :
  encode_utf_8 (a ++ b)
  = rbind (encode_utf_8 a) (fun x => rmap (app x) (encode_utf_8 b)).
Proof.
  induction a as [|c a IH]; cbn [app encode_utf_8 rbind].
  - unfold rmap, rbind. now destruct (encode_utf_8 b).
  - rewrite IH. destruct (utf8_encode_char c) as [w|]; [|reflexivity].
    cbn [rbind]. destruct (encode_utf_8 a) as [x|]; [|reflexivity].
    cbn [rbind rmap]. destruct (encode_utf_8 b) as [z|]; [|reflexivity].
    cbn [rbind rmap]. now rewrite app_assoc.
Qed.

(** *** Line feeds *)

Lemma wf_line_feed w :
  well_formed_sequence w = true -> scalar_of w = 0x0A -> w = [x0a].
Proof.
  intros H E.
  destruct w as [|a [|b [|c [|d [|e w]]]]]; try discriminate H;
    wf_hyp H; unfold scalar_of in E;
    rewrite ?is_continuation_range, ?bad_second3_false, ?bad_second4_false
      in H; try (exfalso; dlia).
  f_equal. now apply b2n_inj.
Qed.

Lemma wf_no_line_feed w :
  well_formed_sequence w = true -> scalar_of w <> 0x0A -> ~ In x0a w.
Proof.
  intros H E Hb. apply E. clear E.
  destruct w as [|a [|b [|c [|d [|e w]]]]]; try discriminate H;
    wf_hyp H; unfold scalar_of;
    rewrite ?is_continuation_range, ?bad_second3_false, ?bad_second4_false
      in H; cbn [In] in Hb;
    repeat (destruct Hb as [Hb|Hb];
            [subst; cbv [b2n Byte.to_N] in H;
             first [reflexivity | exfalso; lia]|]);
    destruct Hb.
Qed.

Lemma newline_bytes_app o a b :
  newline_bytes o (a ++ b) = newline_bytes o a ++ newline_bytes o b.
Proof. apply flat_map_app. Qed.

Lemma newline_bytes_same o raw :
  (forall b, In b raw -> b <> x0a) -> newline_bytes o raw = raw.
Proof.
  induction raw as [|b raw IH]; intros H; [reflexivity|].
  unfold newline_bytes in *. cbn [flat_map].
  rewrite IH by (intros; apply H; now right).
  destruct (byte_eqb b x0a) eqn:E; [|reflexivity].
  apply byte_eqb_eq in E. exfalso. apply (H b); [now left | exact E].
Qed.

Lemma newline_bytes_posix raw : newline_bytes Posix raw = raw.
Proof.
  induction raw as [|b raw IH]; [reflexivity|].
  unfold newline_bytes in *. cbn [flat_map]. rewrite IH.
  destruct (byte_eqb b x0a) eqn:E; [|reflexivity].
  apply byte_eqb_eq in E as ->. reflexivity.
Qed.

(** Translating the newlines of a text and encoding it writes the
    line separator for every line feed byte of its encoding. *)
Lemma encode_translate o raw text :
  utf8_encodes raw text ->
  encode_utf_8 (translate_newlines o text) = Ok (newline_bytes o raw).
Proof.
  induction 1 as [|w r t Hw Hr IH]; [reflexivity|].
  unfold translate_newlines in *. cbn [flat_map].
  rewrite encode_utf_8_app, IH, newline_bytes_app.
  destruct (scalar_of w =? 0x0A) eqn:E.
  - apply N.eqb_eq in E. rewrite (wf_line_feed _ Hw E).
    now destruct o.
  - apply N.eqb_neq in E. cbn [encode_utf_8].
    rewrite (utf8_encode_char_scalar_of _ Hw). cbn [rbind rmap].
    rewrite app_nil_r.
    rewrite (newline_bytes_same o w); [reflexivity|].
    intros b Hb ->. exact (wf_no_line_feed _ Hw E Hb).
Qed.

(** *** ASCII files *)

Lemma ascii_encodes raw :
  forallb is_ascii raw = true -> utf8_encodes raw (List.map b2n raw).
Proof.
  induction raw as [|b raw IH]; [constructor|]. cbn [forallb List.map].
  intros [Hb Hr]%andb_true_iff.
  apply (encodes_cons [b] raw (List.map b2n raw)); [|auto].
  now apply wf1_iff, is_ascii_lt.
Qed.

(** C9 (amended). For an input file of ASCII bytes only (it then starts
    with no byte-order mark and holds no rule pattern), read from [--in]
    and written to a writable [--out], the program succeeds and writes
    the bytes it read with every line feed written as the line separator
    of the platform: where that is a line feed (POSIX), or the input has
    no line feed, the bytes written are the bytes read; where it is
    CR LF (Windows), every line feed is written as CR LF. *)
Theorem ascii_file_unchanged rt argv (w : world) ns inp outp raw :
  parse_args rt argv = Parsed ns ->
  in_path ns = Some (StrVal inp) ->
  out_path ns = Some (StrVal outp) ->
  files w !! inp = Some raw ->
  outp ∉ denied w ->
  forallb is_ascii raw = true ->
  startswith [xff; xfe] raw = false ->
  startswith [xfe; xff] raw = false ->
  startswith [xef; xbb; xbf] raw = false ->
  clean RULES (List.map b2n raw) = true ->
  main rt argv w
  = (Ok 0%Z, written inp outp (newline_bytes (rt_os rt) raw) w)
  /\ files (written inp outp (newline_bytes (rt_os rt) raw) w) !! outp
     = Some (newline_bytes (rt_os rt) raw)
  /\ (rt_os rt = Posix \/ ~ In x0a raw ->
      newline_bytes (rt_os rt) raw = raw)
  /\ (rt_os rt = Windows ->
      newline_bytes (rt_os rt) raw
      = flat_map (fun b => if byte_eqb b x0a then [x0d; x0a] else [b])
                 raw).
Proof.
  intros Hp Hi Ho Hf Hw Ha B1 B2 B3 Hc.
  split; [|split; [apply written_lookup|split]].
  - eapply main_success; eauto.
    + rewrite decode_bytes_plain by assumption.
      now rewrite utf8_decode_replace_ascii.
    + rewrite (repair_clean _ Hc).
      now apply encode_translate, ascii_encodes.
  - intros [-> |Hn]; [apply newline_bytes_posix|].
    apply newline_bytes_same. intros b Hb ->. exact (Hn Hb).
  - intros ->. reflexivity.
Qed.

(** *** Well-formed files *)

Lemma utf8_encodes_no_utf16_bom raw t :
  utf8_encodes raw t ->
  startswith [xff; xfe] raw = false /\ startswith [xfe; xff] raw = false.
Proof.
  destruct 1 as [|w r t Hw Hr]; [auto|].
  destruct w as [|a w]; [discriminate Hw|]. cbn [app startswith].
  assert (Ha : b2n a < 0xF5).
  { destruct w as [|b [|c [|d [|e w]]]]; try discriminate Hw;
      wf_hyp Hw; lia. }
  split; apply andb_false_iff; left;
    (destruct (byte_eqb _ a) eqn:E; [|reflexivity]);
    apply byte_eqb_eq in E; subst a; cbv in Ha; discriminate.
Qed.

Lemma utf8_encodes_inv raw t :
  utf8_encodes raw t ->
  (raw = [] /\ t = [])
  \/ (exists w r t', raw = w ++ r /\ t = scalar_of w :: t'
                     /\ well_formed_sequence w = true
                     /\ utf8_encodes r t').
Proof. destruct 1; [left; auto | right; eauto 10]. Qed.

Lemma utf8_encodes_sig rest t0 :
  utf8_encodes (BOM_UTF8 ++ rest) t0 ->
  exists t, t0 = 0xFEFF :: t /\ utf8_encodes rest t.
Proof.
  intros [[E _]|(w & r & t & E & -> & Hw & Hr)]%utf8_encodes_inv;
    [discriminate E|].
  assert (Hb : well_formed_sequence BOM_UTF8 = true) by reflexivity.
  destruct (wf_prefix_unique _ _ _ _ Hb Hw E) as [<- <-].
  exists t. split; [reflexivity | exact Hr].
Qed.

(** What [read_text] makes of a well-formed file is the text the file
    encodes after its signature, if it has one. *)
Lemma decode_bytes_valid raw text :
  valid_utf8 raw -> decode_bytes raw = Ok text ->
  utf8_encodes (without_signature raw) text.
Proof.
  intros [t0 H0] Hd. unfold without_signature.
  destruct (startswith BOM_UTF8 raw) eqn:B.
  - apply startswith_iff in B as [rest ->].
    rewrite drop_app_length' by reflexivity.
    destruct (utf8_encodes_sig _ _ H0) as (t & _ & Ht).
    rewrite decode_bytes_sig, (utf8_decode_replace_valid _ _ Ht) in Hd.
    now injection Hd as <-.
  - destruct (utf8_encodes_no_utf16_bom _ _ H0) as [A1 A2].
    rewrite decode_bytes_plain, (utf8_decode_replace_valid _ _ H0) in Hd
      by assumption.
    now injection Hd as <-.
Qed.

(** X10. A file of well-formed UTF-8 in whose text no pattern occurs is
    copied: the output holds the bytes of the input after its signature
    (EF BB BF), if it has one, with every line feed written as the
    line separator of the platform, so byte for byte where that is a
    line feed or the file has none. *)
Theorem clean_utf8_file_copied rt argv (w : world) ns inp outp raw text :
  parse_args rt argv = Parsed ns ->
  in_path ns = Some (StrVal inp) ->
  out_path ns = Some (StrVal outp) ->
  files w !! inp = Some raw ->
  outp ∉ denied w ->
  valid_utf8 raw ->
  decode_bytes raw = Ok text ->
  clean RULES text = true ->
  run rt argv w
  = (0%Z, written inp outp
            (newline_bytes (rt_os rt) (without_signature raw)) w)
  /\ (rt_os rt = Posix \/ ~ In x0a raw ->
      newline_bytes (rt_os rt) (without_signature raw)
      = without_signature raw).
Proof.
  intros Hp Hi Ho Hf Hw Hv Hd Hc. split.
  - unfold run.
    rewrite (main_success rt argv w ns inp outp raw text
               (newline_bytes (rt_os rt) (without_signature raw)));
      auto.
    rewrite (repair_clean _ Hc). apply encode_translate.
    now apply decode_bytes_valid.
  - intros [-> |Hn]; [apply newline_bytes_posix|].
    apply newline_bytes_same. intros b Hb ->. apply Hn.
    unfold without_signature in Hb.
    destruct (startswith BOM_UTF8 raw); [|exact Hb].
    exact (in_skipn _ _ _ Hb).
Qed.

(** *** Running the program on its own output *)

Lemma repair_no_line_feed text :
  ~ In 0x0A text -> ~ In 0x0A (repair text).
Proof.
  intros H [Hc|[Hc|Hc]]%repair_in; [exact (H Hc) | discriminate..].
Qed.

Lemma translate_newlines_same o text :
  o = Posix \/ ~ In 0x0A text -> translate_newlines o text = text.
Proof.
  intros [-> |H]; [apply translate_newlines_posix|].
  now apply translate_newlines_no_lf.
Qed.

(** The output of a run is read back as the repaired text, unless that
    text starts with U+FEFF. *)
Lemma decode_bytes_encoded text out :
  forallb is_scalar_value text = true ->
  encode_utf_8 text = Ok out ->
  (forall t, text <> 0xFEFF :: t) ->
  decode_bytes out = Ok text.
Proof.
  intros Hs He Hb.
  destruct (encode_utf_8_ok _ Hs) as (out' & He' & Hv).
  rewrite He in He'. injection He' as <-.
  destruct (utf8_encodes_no_utf16_bom _ _ Hv) as [A1 A2].
  rewrite decode_bytes_plain, (utf8_decode_replace_valid _ _ Hv); auto.
  destruct (startswith [xef; xbb; xbf] out) eqn:B; [|reflexivity].
  apply (encode_head_bom _ _ Hs He) in B as [t ->]. now destruct (Hb t).
Qed.

(** X11. Running the program on its own output changes nothing: the
    second output holds the bytes of the first. This needs an input that
    does not start with two byte-order marks (the first output would
    start with one, which the second run drops), and a platform that
    writes a newline as a line feed, or a text without line feed (CR LF
    would become CR CR LF). *)
Theorem rerun_unchanged rt argv argv' (w : world) ns ns' inp outp outp'
  raw text :
  parse_args rt argv = Parsed ns ->
  in_path ns = Some (StrVal inp) ->
  out_path ns = Some (StrVal outp) ->
  files w !! inp = Some raw ->
  decode_bytes raw = Ok text ->
  outp ∉ denied w ->
  second_bom raw = false ->
  rt_os rt = Posix \/ ~ In 0x0A text ->
  parse_args rt argv' = Parsed ns' ->
  in_path ns' = Some (StrVal outp) ->
  out_path ns' = Some (StrVal outp') ->
  outp' ∉ denied w ->
  exists out,
    run rt argv w = (0%Z, written inp outp out w)
    /\ run rt argv' (written inp outp out w)
       = (0%Z, written outp outp' out (written inp outp out w)).
Proof.
  intros Hp Hi Ho Hf Hd Hw Hb Hos Hp' Hi' Ho' Hw'.
  assert (Hs : forallb is_scalar_value (repair text) = true)
    by (apply repair_scalar; eapply decode_bytes_scalar; eauto).
  assert (Ht : translate_newlines (rt_os rt) (repair text) = repair text).
  { apply translate_newlines_same. destruct Hos as [Hos|Hos]; [now left|].
    right. now apply repair_no_line_feed. }
  destruct (encode_utf_8_ok _ Hs) as (out & He & _).
  exists out. split.
  - unfold run.
    rewrite (main_success rt argv w ns inp outp raw text out); auto.
    now rewrite Ht.
  - unfold run.
    rewrite (main_success rt argv' _ ns' outp outp' out (repair text) out);
      auto.
    + apply written_lookup.
    + apply decode_bytes_encoded; auto.
      intros t E.
      assert (B : second_bom raw = true)
        by (apply (decode_head_bom _ _ Hd), repair_head_bom; eauto).
      congruence.
    + fold (repair (repair text)).
      unfold repair at 1. rewrite (apply_rules_idempotent _ _ RULES_ok).
      fold (repair text). now rewrite Ht.
Qed.

(** *** When [read_text] raises *)

Lemma utf16_decode_raises_aux bo n :
  forall q e, (length q <= n)%nat ->
    utf16_decode_strict bo q = Raise e ->
    exists why, e = UnicodeDecodeError (codec_name bo) why.
Proof.
  induction n as [|n IH]; intros q e Hn H.
  { destruct q; [discriminate H | simpl in Hn; lia]. }
  destruct q as [|b0 [|b1 q2]];
    [discriminate H | injection H as <-; eauto |].
  cbn [utf16_decode_strict] in H. cbv zeta in H.
  destruct (is_surrogate (code_unit bo b0 b1)); cbn [negb] in H.
  - destruct (is_high_surrogate (code_unit bo b0 b1)); cbn [negb] in H;
      [|injection H as <-; eauto].
    destruct q2 as [|b2 [|b3 q4]]; try (injection H as <-; eauto; fail).
    destruct (is_low_surrogate (code_unit bo b2 b3));
      [|injection H as <-; eauto].
    destruct (utf16_decode_strict bo q4) as [t|e'] eqn:D; [discriminate H|].
    injection H as <-. apply (IH q4); [simpl in Hn; lia | exact D].
  - destruct (utf16_decode_strict bo q2) as [t|e'] eqn:D; [discriminate H|].
    injection H as <-. apply (IH q2); [simpl in Hn; lia | exact D].
Qed.

Lemma decode_bytes_raises raw e :
  decode_bytes raw = Raise e ->
  exists bo rest why,
    raw = BOM_UTF16 bo ++ rest
    /\ e = UnicodeDecodeError (codec_name bo) why
    /\ utf16_decode_strict bo rest = Raise e.
Proof.
  intros H.
  destruct (decode_bytes_cases raw)
    as [(bo & rest & ->)|[(rest & ->)|(A & B & C)]].
  - rewrite decode_bytes_utf16 in H.
    destruct (utf16_decode_raises_aux bo _ rest e (le_n _) H) as [why ->].
    exists bo, rest, why. auto.
  - rewrite decode_bytes_sig in H. discriminate H.
  - rewrite decode_bytes_plain in H by assumption. discriminate H.
Qed.

(** X12. [read_text] raises exactly for a file that starts with FF FE or
    FE FF and does not go on as well-formed UTF-16 of that byte order;
    what it raises is the [UnicodeDecodeError] of that codec. A file
    without such a mark is always read. *)
Theorem read_text_raises_iff (raw : bytes) (path : str) (w : world) :
  files w !! path = Some raw ->
  ((exists e, fst (read_text path w) = Raise e)
   <-> exists bo rest,
         raw = BOM_UTF16 bo ++ rest
         /\ forall text, forallb is_scalar_value text = true ->
                         rest <> utf16_encode bo text)
  /\ forall e, fst (read_text path w) = Raise e ->
               exists bo why, startswith (BOM_UTF16 bo) raw = true
                              /\ e = UnicodeDecodeError (codec_name bo) why.
Proof.
  intros Hf. rewrite (read_text_eq _ _ _ Hf). cbn [fst]. split; [split|].
  - intros [e (bo & rest & why & -> & _ & H)%decode_bytes_raises].
    exists bo, rest. split; [reflexivity|]. intros text Hs ->.
    rewrite (utf16_decode_encode bo text Hs) in H. discriminate H.
  - intros (bo & rest & -> & H). rewrite decode_bytes_utf16.
    destruct (utf16_decode_strict bo rest) as [text|e] eqn:D; [|eauto].
    apply utf16_decode_ok in D as [-> Hs]. now destruct (H text Hs).
  - intros e (bo & rest & why & -> & -> & _)%decode_bytes_raises.
    exists bo, why. split; [|reflexivity].
    apply startswith_iff. eauto.
Qed.

(** *** Runs that fail *)

Lemma read_text_missing path (w : world) :
  files w !! path = None ->
  read_text path w
  = (Raise (OSError path), with_events [EvOpenRead path] w).
Proof.
  intros H. unfold read_text, read_bytes, bind, emit, lift. cbn.
  unfold bytes. now rewrite H.
Qed.

Lemma missing_input_file_aux rt argv (w : world) ns inp :
  parse_args rt argv = Parsed ns ->
  in_path ns = Some (StrVal inp) ->
  files w !! inp = None ->
  run rt argv w
  = (1%Z, with_events [EvPrint Stderr (TracebackText (OSError inp));
                       EvOpenRead inp] w).
Proof.
  intros Hp Hi Hf. unfold run, main, parse_args_io, bind. rewrite Hp.
  cbn [ret]. rewrite Hi. cbn [Path ret].
  now rewrite (read_text_missing _ _ Hf).
Qed.

(** X13. When the input file cannot be read, the run ends with the
    traceback of an [OSError] and status 1; the output file is not
    opened, so a file that was there keeps its content. *)
Theorem missing_input_file rt argv (w : world) ns inp :
  parse_args rt argv = Parsed ns ->
  in_path ns = Some (StrVal inp) ->
  files w !! inp = None ->
  run rt argv w
  = (1%Z, with_events [EvPrint Stderr (TracebackText (OSError inp));
                       EvOpenRead inp] w).
Proof. apply missing_input_file_aux. Qed.

Lemma write_refused rt argv (w : world) ns inp outp raw text :
  parse_args rt argv = Parsed ns ->
  in_path ns = Some (StrVal inp) ->
  out_path ns = Some (StrVal outp) ->
  files w !! inp = Some raw ->
  decode_bytes raw = Ok text ->
  outp ∈ denied w ->
  short_write w !! outp = None ->
  run rt argv w
  = (1%Z, with_events [EvPrint Stderr (TracebackText (OSError outp));
                       EvOpenWrite outp; EvOpenRead inp] w).
Proof.
  intros Hp Hi Ho Hf Hd Hw Hn. unfold run, main, parse_args_io, bind.
  rewrite Hp. cbn [ret]. rewrite Hi. cbn [Path ret].
  rewrite (read_text_eq _ _ _ Hf), Hd, Ho. cbn [Path ret].
  unfold write_text, bind, emit. cbn.
  destruct (decide (outp ∈ denied w)) as [_|H]; [|contradiction].
  now rewrite Hn.
Qed.

Lemma write_cut_short rt argv (w : world) ns inp outp raw text n out :
  parse_args rt argv = Parsed ns ->
  in_path ns = Some (StrVal inp) ->
  out_path ns = Some (StrVal outp) ->
  files w !! inp = Some raw ->
  decode_bytes raw = Ok text ->
  outp ∈ denied w ->
  short_write w !! outp = Some n ->
  encode_utf_8 (translate_newlines (rt_os rt) (repair text)) = Ok out ->
  run rt argv w
  = (1%Z, with_events [EvPrint Stderr (TracebackText (OSError outp))]
            (written inp outp (firstn n out) w)).
Proof.
  intros Hp Hi Ho Hf Hd Hw Hn He. unfold run, main, parse_args_io, bind.
  rewrite Hp. cbn [ret]. rewrite Hi. cbn [Path ret].
  rewrite (read_text_eq _ _ _ Hf), Hd, Ho. cbn [Path ret].
  unfold write_text, bind, emit, set_file, lift, raise. cbn.
  destruct (decide (outp ∈ denied w)) as [_|H]; [|contradiction].
  rewrite Hn. fold (repair text). now rewrite He.
Qed.

Lemma repaired_text_encodes o raw text :
  decode_bytes raw = Ok text ->
  exists out, encode_utf_8 (translate_newlines o (repair text)) = Ok out.
Proof.
  intros Hd.
  assert (Hs : forallb is_scalar_value
                 (translate_newlines o (repair text)) = true).
  { apply translate_newlines_scalar, repair_scalar.
    eapply decode_bytes_scalar; eauto. }
  destruct (encode_utf_8_ok _ Hs) as (out & He & _). eauto.
Qed.

(** X14. When the output file cannot be written, the run ends with the
    traceback of an [OSError] and status 1, after the input was read. If
    the file cannot be opened, no file is changed. If the write fails
    after the file was opened, the file is left with the bytes that were
    taken, the first of the output and possibly none, and no other file
    is changed. *)
Theorem unwritable_output rt argv (w : world) ns inp outp raw text :
  parse_args rt argv = Parsed ns ->
  in_path ns = Some (StrVal inp) ->
  out_path ns = Some (StrVal outp) ->
  files w !! inp = Some raw ->
  decode_bytes raw = Ok text ->
  outp ∈ denied w ->
  match short_write w !! outp with
  | None =>
    run rt argv w
    = (1%Z, with_events [EvPrint Stderr (TracebackText (OSError outp));
                         EvOpenWrite outp; EvOpenRead inp] w)
  | Some n =>
    exists out,
      encode_utf_8 (translate_newlines (rt_os rt) (repair text)) = Ok out
      /\ run rt argv w
         = (1%Z, with_events
                   [EvPrint Stderr (TracebackText (OSError outp))]
                   (written inp outp (firstn n out) w))
  end.
Proof.
  intros Hp Hi Ho Hf Hd Hw.
  destruct (short_write w !! outp) as [n|] eqn:Hn.
  - destruct (repaired_text_encodes (rt_os rt) _ _ Hd) as [out He].
    exists out. split; [exact He|].
    now apply (write_cut_short rt argv w ns inp outp raw text).
  - now apply (write_refused rt argv w ns inp outp raw text).
Qed.

Lemma run_raise rt argv (w w' : world) e :
  main rt argv w = (Raise e, w') -> run_error_kind e = true ->
  run rt argv w
  = (1%Z, with_events [EvPrint Stderr (TracebackText e)] w').
Proof. intros H He. unfold run. rewrite H. now destruct e. Qed.

(** X15. Every run ends in one of five ways: with the help text and
    status 0; with a usage error and status 2; with the traceback of a
    [TypeError], an [OSError] or a [UnicodeDecodeError] and status 1
    before anything was written; with the traceback of an [OSError] and
    status 1 after the output file was opened, when the write fails; or
    with status 0 after the output file was written. In the first three
    no file is changed. A write that fails leaves in the output file the
    first bytes of the output, possibly none. A run that succeeds leaves
    in it the UTF-8 encoding of the repaired text with every newline
    written as the line separator of the platform. Encoding never
    fails. *)
Theorem run_outcomes rt argv (w : world) :
  (parse_args rt argv = HelpExit
   /\ run rt argv w = (0%Z, with_events [EvPrint Stdout HelpText] w))
  \/ (exists e,
        parse_args rt argv = ErrorExit e
        /\ run rt argv w
           = (2%Z, with_events [EvPrint Stderr (ErrorText e);
                                EvPrint Stderr UsageText] w))
  \/ (exists ns e events,
        parse_args rt argv = Parsed ns
        /\ run_error_kind e = true
        /\ run rt argv w
           = (1%Z, with_events
                     (EvPrint Stderr (TracebackText e) :: events) w))
  \/ (exists ns inp outp raw text out n,
        parse_args rt argv = Parsed ns
        /\ in_path ns = Some (StrVal inp)
        /\ out_path ns = Some (StrVal outp)
        /\ files w !! inp = Some raw
        /\ decode_bytes raw = Ok text
        /\ encode_utf_8 (translate_newlines (rt_os rt) (repair text))
           = Ok out
        /\ (outp ∈ denied w)
        /\ short_write w !! outp = Some n
        /\ run rt argv w
           = (1%Z, with_events
                     [EvPrint Stderr (TracebackText (OSError outp))]
                     (written inp outp (firstn n out) w)))
  \/ (exists ns inp outp raw text out,
        parse_args rt argv = Parsed ns
        /\ in_path ns = Some (StrVal inp)
        /\ out_path ns = Some (StrVal outp)
        /\ files w !! inp = Some raw
        /\ decode_bytes raw = Ok text
        /\ encode_utf_8 (translate_newlines (rt_os rt) (repair text))
           = Ok out
        /\ (outp ∉ denied w)
        /\ run rt argv w = (0%Z, written inp outp out w)).
Proof.
  destruct (parse_args rt argv) as [ns| |e] eqn:Hp.
  2: { left. split; [reflexivity | now apply run_help]. }
  2: { right. left. exists e. split; [reflexivity | now apply run_error]. }
  right. right.
  destruct (in_path ns) as [[inp|]|] eqn:Hi.
  2,3: left; exists ns, TypeError, []; split; [reflexivity|];
       split; [reflexivity|];
       rewrite (run_raise rt argv w w TypeError); [reflexivity| |reflexivity];
       unfold main, parse_args_io, bind; rewrite Hp; cbn [ret];
       rewrite Hi; reflexivity.
  destruct (files w !! inp) as [raw|] eqn:Hf.
  2: { left. exists ns, (OSError inp), [EvOpenRead inp].
       split; [reflexivity|]. split; [reflexivity|].
       now apply (missing_input_file_aux rt argv w ns inp). }
  assert (Hm : forall e,
             (decode_bytes raw = Raise e
              \/ (exists text, decode_bytes raw = Ok text
                               /\ e = TypeError
                               /\ forall outp,
                                    out_path ns <> Some (StrVal outp))) ->
             main rt argv w = (Raise e, with_events [EvOpenRead inp] w)).
  { intros e H. unfold main, parse_args_io, bind. rewrite Hp. cbn [ret].
    rewrite Hi. cbn [Path ret]. rewrite (read_text_eq _ _ _ Hf).
    destruct H as [-> |(text & -> & -> & Ho)]; [reflexivity|].
    destruct (out_path ns) as [[outp|]|]; [now destruct (Ho outp)|..];
      reflexivity. }
  destruct (decode_bytes raw) as [text|e] eqn:Hd.
  2: { left. exists ns, e, [EvOpenRead inp].
       assert (E : run_error_kind e = true)
         by (apply decode_bytes_raises in Hd as (? & ? & ? & _ & -> & _);
             reflexivity).
       split; [reflexivity|]. split; [exact E|].
       rewrite (run_raise rt argv w (with_events [EvOpenRead inp] w) e);
         [reflexivity | | exact E].
       apply Hm. now left. }
  destruct (out_path ns) as [[outp|]|] eqn:Ho.
  2,3: left; exists ns, TypeError, [EvOpenRead inp];
       split; [reflexivity|]; split; [reflexivity|];
       rewrite (run_raise rt argv w (with_events [EvOpenRead inp] w)
                  TypeError); [reflexivity| |reflexivity];
       apply Hm; right; exists text; repeat split; discriminate.
  destruct (repaired_text_encodes (rt_os rt) _ _ Hd) as [out He].
  destruct (decide (outp ∈ denied w)) as [Hw|Hw].
  { destruct (short_write w !! outp) as [n|] eqn:Hn.
    - right. left. exists ns, inp, outp, raw, text, out, n.
      repeat split; auto.
      now apply (write_cut_short rt argv w ns inp outp raw text).
    - left. exists ns, (OSError outp), [EvOpenWrite outp; EvOpenRead inp].
      split; [reflexivity|]. split; [reflexivity|].
      now apply (write_refused rt argv w ns inp outp raw text). }
  right. right.
  exists ns, inp, outp, raw, text, out. repeat split; auto.
  unfold run.
  now rewrite (main_success _ _ _ _ _ _ _ _ _ Hp Hi Ho Hf Hd Hw He).
Qed.

(** *** The command line *)

Lemma no_dash_positional rt v :
  str_startswith (lit "-") v = false ->
  parse_optional rt v = Positional /\ str_eqb v (lit "--") = false.
Proof.
  destruct v as [|c v]; [auto|].
  change (lit "-") with [0x2D]. change (lit "--") with [0x2D; 0x2D].
  cbn [str_startswith str_eqb]. rewrite andb_true_r. intros H.
  split.
  - unfold parse_optional. rewrite N.eqb_sym, H. reflexivity.
  - now rewrite N.eqb_sym, H.
Qed.

Lemma no_dash_argument rt v :
  str_startswith (lit "-") v = false -> is_argument rt v = true.
Proof.
  intros [H1 H2]%(no_dash_positional rt). unfold is_argument.
  now rewrite H1, H2.
Qed.

(** X16. For paths that do not start with [-], the two flags can be
    given in either order, with the path as the next argument or after
    [=], and abbreviated to [--i] and [--o]: the parser returns the two
    paths in each case. *)
Theorem command_line_forms rt (inp outp : str) :
  str_startswith (lit "-") inp = false ->
  str_startswith (lit "-") outp = false ->
  let ns := {| in_path := Some (StrVal inp);
               out_path := Some (StrVal outp) |} in
  parse_args rt [lit "--in"; inp; lit "--out"; outp] = Parsed ns
  /\ parse_args rt [lit "--out"; outp; lit "--in"; inp] = Parsed ns
  /\ parse_args rt [lit "--in=" ++ inp; lit "--out=" ++ outp] = Parsed ns
  /\ parse_args rt [lit "--i"; inp; lit "--o"; outp] = Parsed ns.
Proof.
  intros Hi Ho ns.
  destruct (no_dash_positional rt _ Hi) as [Pi Ei].
  destruct (no_dash_positional rt _ Ho) as [Po Eo].
  pose proof (no_dash_argument rt _ Hi) as Ai.
  pose proof (no_dash_argument rt _ Ho) as Ao.
  assert (Pin : parse_optional rt (lit "--in")
                = Optional (Some StoreIn) (lit "--in") None) by reflexivity.
  assert (Pout : parse_optional rt (lit "--out")
                 = Optional (Some StoreOut) (lit "--out") None)
    by reflexivity.
  assert (Pi' : parse_optional rt (lit "--i")
                = Optional (Some StoreIn) (lit "--in") None) by reflexivity.
  assert (Po' : parse_optional rt (lit "--o")
                = Optional (Some StoreOut) (lit "--out") None)
    by reflexivity.
  assert (Pie : parse_optional rt (lit "--in=" ++ inp)
                = Optional (Some StoreIn) (lit "--in") (Some inp))
    by reflexivity.
  assert (Poe : parse_optional rt (lit "--out=" ++ outp)
                = Optional (Some StoreOut) (lit "--out") (Some outp))
    by reflexivity.
  assert (Ein : str_eqb (lit "--in") (lit "--") = false) by reflexivity.
  assert (Eout : str_eqb (lit "--out") (lit "--") = false) by reflexivity.
  assert (Ei' : str_eqb (lit "--i") (lit "--") = false) by reflexivity.
  assert (Eo' : str_eqb (lit "--o") (lit "--") = false) by reflexivity.
  assert (Eie : str_eqb (lit "--in=" ++ inp) (lit "--") = false)
    by reflexivity.
  assert (Eoe : str_eqb (lit "--out=" ++ outp) (lit "--") = false)
    by reflexivity.
  unfold parse_args.
  repeat split;
    cbn [first_ambiguous consume];
    rewrite ?Ein, ?Eout, ?Ei', ?Eo', ?Eie, ?Eoe, ?Ei, ?Eo,
      ?Pin, ?Pout, ?Pi', ?Po', ?Pie, ?Poe, ?Pi, ?Po;
    cbn [first_ambiguous consume];
    rewrite ?Ein, ?Eout, ?Ei', ?Eo', ?Eie, ?Eoe, ?Ei, ?Eo,
      ?Pin, ?Pout, ?Pi', ?Po', ?Pie, ?Poe, ?Pi, ?Po, ?Ai, ?Ao;
    unfold value_of; rewrite ?Ei, ?Eo; reflexivity.
Qed.

(** *** UTF-16 input *)

(** X17. A file that holds a UTF-16 byte-order mark and then the UTF-16
    encoding, in that byte order, of a text is converted: the run
    succeeds and the output is the UTF-8 encoding of the repaired text,
    without the mark. *)
Theorem utf16_file_transcoded rt argv (w : world) ns inp outp bo text :
  parse_args rt argv = Parsed ns ->
  in_path ns = Some (StrVal inp) ->
  out_path ns = Some (StrVal outp) ->
  files w !! inp = Some (BOM_UTF16 bo ++ utf16_encode bo text) ->
  forallb is_scalar_value text = true ->
  outp ∉ denied w ->
  exists out,
    run rt argv w = (0%Z, written inp outp out w)
    /\ utf8_encodes out (translate_newlines (rt_os rt) (repair text)).
Proof.
  intros Hp Hi Ho Hf Hs Hw.
  assert (Hs' : forallb is_scalar_value
                  (translate_newlines (rt_os rt) (repair text)) = true)
    by now apply translate_newlines_scalar, repair_scalar.
  destruct (encode_utf_8_ok _ Hs') as (out & He & Hv).
  exists out. split; [|exact Hv]. unfold run.
  rewrite (main_success rt argv w ns inp outp
             (BOM_UTF16 bo ++ utf16_encode bo text) text out); auto.
  rewrite decode_bytes_utf16. now apply utf16_decode_encode.
Qed.

(** *** Concrete runs of the whole program *)

Lemma clean_utf8_file_copied_witness :
  run (example_runtime Windows) example_argv
      (file_world (lit "in") [xef; xbb; xbf; xc3; xa9; x0a])
  = (0%Z, written (lit "in") (lit "out")
            (newline_bytes Windows
               (without_signature [xef; xbb; xbf; xc3; xa9; x0a]))
            (file_world (lit "in") [xef; xbb; xbf; xc3; xa9; x0a]))
  /\ (Windows = Posix \/ ~ In x0a [xef; xbb; xbf; xc3; xa9; x0a] ->
      newline_bytes Windows
        (without_signature [xef; xbb; xbf; xc3; xa9; x0a])
      = without_signature [xef; xbb; xbf; xc3; xa9; x0a]).
Proof.
  apply (clean_utf8_file_copied (example_runtime Windows) example_argv _
           _ (lit "in") (lit "out") [xef; xbb; xbf; xc3; xa9; x0a]
           [0xE9; 0x0A] (example_parse Windows));
    [reflexivity | reflexivity | apply file_world_lookup
     | apply not_elem_of_empty | | reflexivity | reflexivity].
  exists [0xFEFF; 0xE9; 0x0A].
  apply (encodes_cons [xef; xbb; xbf]); [reflexivity|].
  apply (encodes_cons [xc3; xa9]); [reflexivity|].
  apply (encodes_cons [x0a] []); [reflexivity | constructor].
Defined.

Lemma rerun_unchanged_witness :
  exists out,
    run (example_runtime Posix) example_argv
        (file_world (lit "in") [xc3; x94; xc3; x87; xc3; xb4; x0a])
    = (0%Z, written (lit "in") (lit "out") out
              (file_world (lit "in") [xc3; x94; xc3; x87; xc3; xb4; x0a]))
    /\ run (example_runtime Posix)
           [lit "--in"; lit "out"; lit "--out"; lit "out"]
           (written (lit "in") (lit "out") out
              (file_world (lit "in") [xc3; x94; xc3; x87; xc3; xb4; x0a]))
       = (0%Z,
          written (lit "out") (lit "out") out
            (written (lit "in") (lit "out") out
               (file_world (lit "in")
                  [xc3; x94; xc3; x87; xc3; xb4; x0a]))).
Proof.
  apply (rerun_unchanged (example_runtime Posix) example_argv
           [lit "--in"; lit "out"; lit "--out"; lit "out"] _
           {| in_path := Some (StrVal (lit "in"));
              out_path := Some (StrVal (lit "out")) |}
           {| in_path := Some (StrVal (lit "out"));
              out_path := Some (StrVal (lit "out")) |}
           (lit "in") (lit "out") (lit "out")
           [xc3; x94; xc3; x87; xc3; xb4; x0a] [0xD4; 0xC7; 0xF4; 0x0A]);
    [reflexivity | reflexivity | reflexivity | apply file_world_lookup
     | reflexivity | apply not_elem_of_empty | reflexivity
     | left; reflexivity | reflexivity | reflexivity | reflexivity
     | apply not_elem_of_empty].
Defined.

Lemma read_text_raises_iff_witness :
  ((exists e,
      fst (read_text (lit "in")
             (file_world (lit "in") [xff; xfe; x00; xd8])) = Raise e)
   <-> exists bo rest,
         [xff; xfe; x00; xd8] = BOM_UTF16 bo ++ rest
         /\ forall text, forallb is_scalar_value text = true ->
                         rest <> utf16_encode bo text)
  /\ forall e,
       fst (read_text (lit "in")
              (file_world (lit "in") [xff; xfe; x00; xd8])) = Raise e ->
       exists bo why,
         startswith (BOM_UTF16 bo) [xff; xfe; x00; xd8] = true
         /\ e = UnicodeDecodeError (codec_name bo) why.
Proof.
  apply (read_text_raises_iff [xff; xfe; x00; xd8]).
  apply file_world_lookup.
Defined.

Lemma missing_input_file_witness :
  run (example_runtime Posix) example_argv (file_world (lit "other") [x41])
  = (1%Z,
     with_events [EvPrint Stderr (TracebackText (OSError (lit "in")));
                  EvOpenRead (lit "in")]
       (file_world (lit "other") [x41])).
Proof.
  apply (missing_input_file (example_runtime Posix) example_argv _
           {| in_path := Some (StrVal (lit "in"));
              out_path := Some (StrVal (lit "out")) |});
    [reflexivity | reflexivity | vm_compute; reflexivity].
Defined.

Lemma unwritable_output_witness :
  match short_write (locked_world (lit "in") [x41]) !! lit "out" with
  | None =>
    run (example_runtime Posix) example_argv (locked_world (lit "in") [x41])
    = (1%Z,
       with_events [EvPrint Stderr (TracebackText (OSError (lit "out")));
                    EvOpenWrite (lit "out"); EvOpenRead (lit "in")]
         (locked_world (lit "in") [x41]))
  | Some n =>
    exists out,
      encode_utf_8 (translate_newlines Posix (repair [0x41])) = Ok out
      /\ run (example_runtime Posix) example_argv
             (locked_world (lit "in") [x41])
         = (1%Z,
            with_events
              [EvPrint Stderr (TracebackText (OSError (lit "out")))]
              (written (lit "in") (lit "out") (firstn n out)
                 (locked_world (lit "in") [x41])))
  end.
Proof.
  apply (unwritable_output (example_runtime Posix) example_argv _
           {| in_path := Some (StrVal (lit "in"));
              out_path := Some (StrVal (lit "out")) |}
           (lit "in") (lit "out") [x41] [0x41]);
    [reflexivity | reflexivity | reflexivity | apply lookup_singleton_eq
     | reflexivity
     | change (lit "out" ∈ ({[ lit "out" ]} : gset (list N)));
       now apply elem_of_singleton_2].
Defined.

(** A write that fails after two bytes leaves these two bytes in the
    output file. *)
Example write_cut_short_example :
  exists w',
    run (example_runtime Posix) example_argv
        (short_world (lit "in") [x41; x42; x43] 2) = (1%Z, w')
    /\ files w' !! lit "out" = Some [x41; x42]
    /\ files w' !! lit "in" = Some [x41; x42; x43].
Proof.
  eexists. split; [|split].
  - apply (write_cut_short (example_runtime Posix) example_argv _
             {| in_path := Some (StrVal (lit "in"));
                out_path := Some (StrVal (lit "out")) |}
             (lit "in") (lit "out") [x41; x42; x43] [0x41; 0x42; 0x43] 2
             [x41; x42; x43]);
      [reflexivity | reflexivity | reflexivity | apply lookup_singleton_eq
       | reflexivity
       | change (lit "out" ∈ ({[ lit "out" ]} : gset (list N)));
         now apply elem_of_singleton_2
       | apply lookup_singleton_eq | reflexivity].
  - apply written_lookup.
  - vm_compute. reflexivity.
Qed.

Lemma ascii_file_unchanged_witness :
  main (example_runtime Windows) example_argv
       (file_world (lit "in") [x7b; x22; x61; x22; x3a; x31; x7d; x0a])
  = (Ok 0%Z,
     written (lit "in") (lit "out")
       (newline_bytes Windows [x7b; x22; x61; x22; x3a; x31; x7d; x0a])
       (file_world (lit "in") [x7b; x22; x61; x22; x3a; x31; x7d; x0a]))
  /\ files (written (lit "in") (lit "out")
              (newline_bytes Windows
                 [x7b; x22; x61; x22; x3a; x31; x7d; x0a])
              (file_world (lit "in")
                 [x7b; x22; x61; x22; x3a; x31; x7d; x0a]))
     !! lit "out"
     = Some (newline_bytes Windows
               [x7b; x22; x61; x22; x3a; x31; x7d; x0a])
  /\ (Windows = Posix \/ ~ In x0a [x7b; x22; x61; x22; x3a; x31; x7d; x0a] ->
      newline_bytes Windows [x7b; x22; x61; x22; x3a; x31; x7d; x0a]
      = [x7b; x22; x61; x22; x3a; x31; x7d; x0a])
  /\ (Windows = Windows ->
      newline_bytes Windows [x7b; x22; x61; x22; x3a; x31; x7d; x0a]
      = flat_map (fun b => if byte_eqb b x0a then [x0d; x0a] else [b])
                 [x7b; x22; x61; x22; x3a; x31; x7d; x0a]).
Proof.
  apply (ascii_file_unchanged (example_runtime Windows) example_argv _
           _ (lit "in") (lit "out") _ (example_parse Windows));
    [reflexivity | reflexivity | apply file_world_lookup
     | apply not_elem_of_empty | reflexivity | reflexivity | reflexivity
     | reflexivity | reflexivity].
Defined.

Lemma command_line_forms_witness :
  let ns := {| in_path := Some (StrVal (lit "a.json"));
               out_path := Some (StrVal (lit "b.json")) |} in
  parse_args (example_runtime Posix)
    [lit "--in"; lit "a.json"; lit "--out"; lit "b.json"] = Parsed ns
  /\ parse_args (example_runtime Posix)
       [lit "--out"; lit "b.json"; lit "--in"; lit "a.json"] = Parsed ns
  /\ parse_args (example_runtime Posix)
       [lit "--in=" ++ lit "a.json"; lit "--out=" ++ lit "b.json"]
     = Parsed ns
  /\ parse_args (example_runtime Posix)
       [lit "--i"; lit "a.json"; lit "--o"; lit "b.json"] = Parsed ns.
Proof.
  apply (command_line_forms (example_runtime Posix)
           (lit "a.json") (lit "b.json")); reflexivity.
Defined.

Lemma utf16_file_transcoded_witness :
  exists out,
    run (example_runtime Posix) example_argv
        (file_world (lit "in")
           (BOM_UTF16 BigEndian
            ++ utf16_encode BigEndian [0xD4; 0xC7; 0xF4; 0x1F600]))
    = (0%Z, written (lit "in") (lit "out") out
              (file_world (lit "in")
                 (BOM_UTF16 BigEndian
                  ++ utf16_encode BigEndian [0xD4; 0xC7; 0xF4; 0x1F600])))
    /\ utf8_encodes out
         (translate_newlines Posix (repair [0xD4; 0xC7; 0xF4; 0x1F600])).
Proof.
  apply (utf16_file_transcoded (example_runtime Posix) example_argv _
           {| in_path := Some (StrVal (lit "in"));
              out_path := Some (StrVal (lit "out")) |}
           (lit "in") (lit "out") BigEndian [0xD4; 0xC7; 0xF4; 0x1F600]);
    [reflexivity | reflexivity | reflexivity | apply file_world_lookup
     | reflexivity | apply not_elem_of_empty].
Defined.

(** Why the conditions of X11 are needed: on a platform that writes a
    newline as CR LF, a second run on the output of the first writes
    CR CR LF. *)
Example rerun_windows_grows :
  exists w1 w2,
    run (example_runtime Windows) example_argv
        (file_world (lit "in") [x41; x0a]) = (0%Z, w1)
    /\ files w1 !! lit "out" = Some [x41; x0d; x0a]
    /\ run (example_runtime Windows)
           [lit "--in"; lit "out"; lit "--out"; lit "out"] w1 = (0%Z, w2)
    /\ files w2 !! lit "out" = Some [x41; x0d; x0d; x0a].
Proof.
  eexists. eexists. split; [|split; [|split]].
  - unfold run.
    now rewrite (example_main Windows [x41; x0a] [0x41; 0x0A]
                   [x41; x0d; x0a]).
  - apply written_lookup.
  - unfold run.
    rewrite (main_success (example_runtime Windows) _ _
               {| in_path := Some (StrVal (lit "out"));
                  out_path := Some (StrVal (lit "out")) |}
               (lit "out") (lit "out") [x41; x0d; x0a] [0x41; 0x0D; 0x0A]
               [x41; x0d; x0d; x0a]);
      [reflexivity | reflexivity | reflexivity | reflexivity
       | apply written_lookup | reflexivity | apply not_elem_of_empty
       | reflexivity].
  - apply written_lookup.
Qed.

